(** * digiimg: similarity-gated OCR extraction over a watched directory

    A shallow embedding of [main.go].

    - The routines of Go's standard library that decide what the program
      does with its strings: [utf8.DecodeRuneInString], [unicode.IsSpace],
      [strings.Fields], [strings.Split], [strings.ToLower],
      [strings.HasSuffix].  Go strings are byte sequences: they are
      modelled as [string], whose characters are the 256 byte values.
    - The operating system, OpenCV and Tesseract, as the record [Env] of
      the answers they give.
    - [SSIM], [ValidateImage], [CompareImages],
      [ExtractTextWithEnglishAndNumbers] as functions; [float64] is the
      kernel's binary64.
    - [AnalyzeDirectory] as a state machine: the polling loop and the
      goroutines it starts move one step at a time, in the order a
      schedule gives, and leave a trace of what they do.

    The second source file differs from [main.go] in one place: it calls
    a library routine for the score where [main.go] has its own [SSIM]. *)

From Stdlib Require Import ZArith List String Ascii Bool Lia PrimFloat QArith Lqa.
From Stdlib Require Uint63.
From Stdlib Require FloatAxioms SpecFloat FloatOps.
From stdpp Require Import gmap strings.

Set Warnings "-inexact-float".
Local Open Scope Z_scope.

(* ===================================================================== *)
(** ** Package [unicode/utf8]: decoding and encoding runes               *)
(* ===================================================================== *)

Module utf8.

Definition rune := Z.

Definition RuneError : rune := 0xFFFD.
Definition RuneSelf : Z := 0x80.
Definition MaxRune : rune := 0x10FFFF.
Definition surrogateMin : rune := 0xD800.
Definition surrogateMax : rune := 0xDFFF.

Definition maskx : Z := 0x3F.
Definition mask2 : Z := 0x1F.
Definition mask3 : Z := 0x0F.
Definition mask4 : Z := 0x07.

Definition t2 : Z := 0xC0.
Definition t3 : Z := 0xE0.
Definition t4 : Z := 0xF0.
Definition tx : Z := 0x80.

Definition rune1Max : Z := 0x7F.
Definition rune2Max : Z := 0x7FF.
Definition rune3Max : Z := 0xFFFF.

Definition locb : Z := 0x80.
Definition hicb : Z := 0xBF.

(** Entries of the [first] table: the low three bits are the length of
    the sequence, the high four bits select the accept range of the
    second byte. *)
Definition xx : Z := 0xF1.
Definition as_ : Z := 0xF0.
Definition s1 : Z := 0x02.
Definition s2 : Z := 0x13.
Definition s3 : Z := 0x03.
Definition s4 : Z := 0x23.
Definition s5 : Z := 0x34.
Definition s6 : Z := 0x04.
Definition s7 : Z := 0x44.

(** The numeric value of a byte of a Go string. *)
Definition byteOf (c : ascii) : Z := Z.of_N (N_of_ascii c).

(** [byte(x)]: the conversion keeps the low eight bits. *)
Definition toByte (x : Z) : ascii := ascii_of_N (Z.to_N (x mod 256)).

(** [first[b]], the 256-entry table written by ranges. *)
Definition first (b : Z) : Z :=
  if b <? 0x80 then as_
  else if b <? 0xC2 then xx
  else if b <? 0xE0 then s1
  else if b =? 0xE0 then s2
  else if b <? 0xED then s3
  else if b =? 0xED then s4
  else if b <? 0xF0 then s3
  else if b =? 0xF0 then s5
  else if b <? 0xF4 then s6
  else if b =? 0xF4 then s7
  else xx.

(** [acceptRanges[i]] as the pair [(lo, hi)]. *)
Definition acceptRanges (i : Z) : Z * Z :=
  match i with
  | 0 => (locb, hicb)
  | 1 => (0xA0, hicb)
  | 2 => (locb, 0x9F)
  | 3 => (0x90, hicb)
  | 4 => (locb, 0x8F)
  | _ => (0, 0)
  end.

(** [utf8.DecodeRuneInString]: the first rune of [s] and its width in
    bytes.  An invalid or short encoding gives [(RuneError, 1)], the
    empty string [(RuneError, 0)]. *)
Definition DecodeRuneInString (s : string) : rune * nat :=
  match s with
  | EmptyString => (RuneError, 0%nat)
  | String c0 r0 =>
      let b0 := byteOf c0 in
      let x := first b0 in
      if as_ <=? x then
        (* mask := rune(x) << 31 >> 31: all ones for [xx], zero for [as] *)
        ((if x =? xx then RuneError else b0), 1%nat)
      else
        let sz := Z.land x 7 in
        let accept := acceptRanges (Z.shiftr x 4) in
        if Z.of_nat (String.length s) <? sz then (RuneError, 1%nat)
        else
          match r0 with
          | EmptyString => (RuneError, 1%nat)
          | String c1 r1 =>
              let b1 := byteOf c1 in
              if (b1 <? fst accept) || (snd accept <? b1) then (RuneError, 1%nat)
              else if sz <=? 2 then
                (Z.lor (Z.shiftl (Z.land b0 mask2) 6) (Z.land b1 maskx), 2%nat)
              else
                match r1 with
                | EmptyString => (RuneError, 1%nat)
                | String c2 r2 =>
                    let b2 := byteOf c2 in
                    if (b2 <? locb) || (hicb <? b2) then (RuneError, 1%nat)
                    else if sz <=? 3 then
                      (Z.lor (Z.lor (Z.shiftl (Z.land b0 mask3) 12)
                                    (Z.shiftl (Z.land b1 maskx) 6))
                             (Z.land b2 maskx), 3%nat)
                    else
                      match r2 with
                      | EmptyString => (RuneError, 1%nat)
                      | String c3 _ =>
                          let b3 := byteOf c3 in
                          if (b3 <? locb) || (hicb <? b3) then (RuneError, 1%nat)
                          else
                            (Z.lor (Z.lor (Z.lor (Z.shiftl (Z.land b0 mask4) 18)
                                                 (Z.shiftl (Z.land b1 maskx) 12))
                                          (Z.shiftl (Z.land b2 maskx) 6))
                                   (Z.land b3 maskx), 4%nat)
                      end
                end
          end
  end.

(** The three-byte encoding, shared by the [rune3Max] case and by the
    replacement of an invalid rune. *)
Definition encode3 (r : rune) : string :=
  String (toByte (Z.lor t3 (Z.shiftr r 12)))
    (String (toByte (Z.lor tx (Z.land (Z.shiftr r 6) maskx)))
       (String (toByte (Z.lor tx (Z.land r maskx))) EmptyString)).

(** [utf8.AppendRune(nil, r)]: the UTF-8 encoding of [r]; a rune out of
    range or a surrogate half is written as [RuneError]. *)
Definition EncodeRune (r : rune) : string :=
  if (0 <=? r) && (r <=? rune1Max) then String (toByte r) EmptyString
  else if (0 <=? r) && (r <=? rune2Max) then
    String (toByte (Z.lor t2 (Z.shiftr r 6)))
      (String (toByte (Z.lor tx (Z.land r maskx))) EmptyString)
  else if (r <? 0) || (MaxRune <? r) || ((surrogateMin <=? r) && (r <=? surrogateMax))
  then encode3 RuneError
  else if r <=? rune3Max then encode3 r
  else
    String (toByte (Z.lor t4 (Z.shiftr r 18)))
      (String (toByte (Z.lor tx (Z.land (Z.shiftr r 12) maskx)))
         (String (toByte (Z.lor tx (Z.land (Z.shiftr r 6) maskx)))
            (String (toByte (Z.lor tx (Z.land r maskx))) EmptyString))).

(** [for i, r := range s]: the runes of [s] in order, each decoded at
    the byte that follows the previous rune.  [skip] counts the bytes of
    the current rune that are still to be stepped over. *)
Fixpoint rangeFrom (skip : nat) (s : string) : list rune :=
  match s with
  | EmptyString => []
  | String _ rest =>
      match skip with
      | S k => rangeFrom k rest
      | O => let '(r, size) := DecodeRuneInString s in
             r :: rangeFrom (Nat.pred size) rest
      end
  end.

Definition range (s : string) : list rune := rangeFrom 0 s.

End utf8.

(* ===================================================================== *)
(** ** Package [unicode]: white space and lower case                    *)
(* ===================================================================== *)

Module unicode.

Import utf8.

Definition MaxASCII : rune := 0x7F.
Definition MaxLatin1 : rune := 0xFF.

(** The ranges of the [White_Space] table past its Latin-1 entries. *)
Definition White_Space_excludingLatin : list (rune * rune) :=
  [ (0x1680, 0x1680); (0x2000, 0x200a); (0x2028, 0x2029);
    (0x202f, 0x202f); (0x205f, 0x205f); (0x3000, 0x3000) ].

Definition isExcludingLatin (tab : list (rune * rune)) (r : rune) : bool :=
  existsb (fun lh => (fst lh <=? r) && (r <=? snd lh)) tab.

(** [unicode.IsSpace]. *)
Definition IsSpace (r : rune) : bool :=
  if (0 <=? r) && (r <=? MaxLatin1) then
    match r with
    | 0x09 | 0x0A | 0x0B | 0x0C | 0x0D | 0x20 | 0x85 | 0xA0 => true
    | _ => false
    end
  else isExcludingLatin White_Space_excludingLatin r.

(** [unicode.ToLower]. Past ASCII the answer comes from the runtime's
    [CaseRanges] table, which is not part of the program: [caseLower]
    stands for [To(LowerCase, r)]. *)
Definition ToLower (caseLower : rune -> rune) (r : rune) : rune :=
  if r <=? MaxASCII then
    if (0x41 <=? r) && (r <=? 0x5A) then r + (0x61 - 0x41) else r
  else caseLower r.

End unicode.

(* ===================================================================== *)
(** ** Package [strings]                                                 *)
(* ===================================================================== *)

Module strings.

Import utf8.

(** [len(s)] is [String.length s]; [s + string(c)]: *)
Definition snoc (s : string) (c : ascii) : string := s +:+ String c EmptyString.

(** The field under construction while scanning: [None] between fields
    (Go's [start < 0]), [Some w] inside one, [w] being [s[start:i]]. *)
Definition push (cur : option string) (c : ascii) : option string :=
  Some (snoc (default EmptyString cur) c).

Definition flush (cur : option string) : list string :=
  match cur with Some w => [w] | None => [] end.

(** [asciiSpace[c] != 0]. *)
Definition asciiSpace (c : ascii) : bool :=
  match byteOf c with
  | 0x09 | 0x0A | 0x0B | 0x0C | 0x0D | 0x20 => true
  | _ => false
  end.

(** [setBits]: the bitwise or of all the bytes of [s]. *)
Fixpoint setBits (s : string) : Z :=
  match s with
  | EmptyString => 0
  | String c rest => Z.lor (byteOf c) (setBits rest)
  end.

(** [strings.FieldsFunc(s, f)] from a position inside [s]: the maximal
    runs of runes that do not satisfy [f]. *)
Fixpoint fieldsFuncFrom (f : rune -> bool) (skip : nat) (cur : option string)
    (s : string) : list string :=
  match s with
  | EmptyString => flush cur
  | String c rest =>
      match skip with
      | S k =>
          (* a later byte of the rune decoded before: in the field iff that rune is *)
          fieldsFuncFrom f k (match cur with Some _ => push cur c | None => None end) rest
      | O =>
          let '(r, size) := DecodeRuneInString s in
          if f r then flush cur ++ fieldsFuncFrom f (Nat.pred size) None rest
          else fieldsFuncFrom f (Nat.pred size) (push cur c) rest
      end
  end.

Definition FieldsFunc (s : string) (f : rune -> bool) : list string :=
  fieldsFuncFrom f 0 None s.

(** The ASCII fast path of [strings.Fields]. *)
Fixpoint fieldsASCII (cur : option string) (s : string) : list string :=
  match s with
  | EmptyString => flush cur
  | String c rest =>
      if asciiSpace c then flush cur ++ fieldsASCII None rest
      else fieldsASCII (push cur c) rest
  end.

(** [strings.Fields]. *)
Definition Fields (s : string) : list string :=
  if RuneSelf <=? setBits s then FieldsFunc s unicode.IsSpace
  else fieldsASCII None s.

(** [strings.HasPrefix]. *)
Definition HasPrefix (s pre : string) : bool :=
  (String.length pre <=? String.length s)%nat
  && String.eqb (substring 0 (String.length pre) s) pre.

(** [strings.HasSuffix]. *)
Definition HasSuffix (s suffix : string) : bool :=
  (String.length suffix <=? String.length s)%nat
  && String.eqb
       (substring (String.length s - String.length suffix) (String.length suffix) s)
       suffix.

(** [explode(s, -1)]: one string per rune, an invalid byte on its own. *)
Fixpoint explodeFrom (skip : nat) (s : string) : list string :=
  match s with
  | EmptyString => []
  | String _ rest =>
      match skip with
      | S k => explodeFrom k rest
      | O => let '(_, size) := DecodeRuneInString s in
             substring 0 size s :: explodeFrom (Nat.pred size) rest
      end
  end.

(** [genSplit(s, sep, 0, -1)] for a non-empty [sep]: [cur] is the piece
    since the last separator, [skip] the bytes of a separator just
    matched that remain to be stepped over. *)
Fixpoint splitFrom (sep : string) (skip : nat) (cur : string) (s : string)
    : list string :=
  match s with
  | EmptyString => [cur]
  | String c rest =>
      match skip with
      | S k => splitFrom sep k cur rest
      | O =>
          if HasPrefix s sep
          then cur :: splitFrom sep (Nat.pred (String.length sep)) EmptyString rest
          else splitFrom sep 0 (snoc cur c) rest
      end
  end.

(** [strings.Split]. *)
Definition Split (s sep : string) : list string :=
  match sep with
  | EmptyString => explodeFrom 0 s
  | _ => splitFrom sep 0 EmptyString s
  end.

(** [strings.Map(mapping, s)]: every rune of [s] is replaced by its
    image, a negative image is dropped.  Go copies an unchanged prefix
    as it is; a rune the decoder accepts is re-encoded to the same
    bytes, so the result is the one computed here. *)
Definition Map (mapping : rune -> rune) (s : string) : string :=
  fold_right
    (fun r out => let m := mapping r in
                  if 0 <=? m then EncodeRune m +:+ out else out)
    EmptyString (range s).

Fixpoint mapBytes (f : ascii -> ascii) (s : string) : string :=
  match s with
  | EmptyString => EmptyString
  | String c rest => String (f c) (mapBytes f rest)
  end.

Fixpoint allBytes (p : ascii -> bool) (s : string) : bool :=
  match s with
  | EmptyString => true
  | String c rest => p c && allBytes p rest
  end.

Definition isUpperASCII (c : ascii) : bool :=
  (0x41 <=? byteOf c) && (byteOf c <=? 0x5A).

(** [strings.ToLower]: ASCII strings are lowered byte by byte, the
    others rune by rune through [unicode.ToLower]. *)
Definition ToLower (caseLower : rune -> rune) (s : string) : string :=
  let isASCII := allBytes (fun c => byteOf c <? RuneSelf) s in
  let hasUpper := negb (allBytes (fun c => negb (isUpperASCII c)) s) in
  if isASCII then
    if negb hasUpper then s
    else mapBytes (fun c => if isUpperASCII c
                            then toByte (byteOf c + (0x61 - 0x41)) else c) s
  else Map (unicode.ToLower caseLower) s.

End strings.

(* ===================================================================== *)
(** ** What the program gets from outside its own source                 *)
(* ===================================================================== *)

(** A Go [error], by its message. *)
Definition error := string.

(** A Go result pair [(T, error)]: the value when [err == nil]. *)
Inductive result (T : Type) : Type :=
| Ok (v : T)
| Err (err : error).
Arguments Ok {T} v.
Arguments Err {T} err.

(** [gocv.Mat], as far as the program looks into it: its size and, for a
    single-channel 8-bit matrix, its rows of bytes. *)
Record Mat : Type := mkMat {
  Rows : nat;
  Cols : nat;
  data : list (list Z)
}.

(** [m.Empty()]. *)
Definition Empty (m : Mat) : bool := (Rows m * Cols m =? 0)%nat.

(** [m.GetUCharAt(y, x)]: an unsigned 8-bit value.  gocv does not check
    the position; outside the rows given here it reads as 0.  The program
    reads two canvases of 300 by 300 inside their bounds. *)
Definition GetUCharAt (m : Mat) (y x : nat) : Z :=
  nth x (nth y (data m) []) 0 mod 256.

Inductive IMReadFlag : Type := IMReadGrayScale | IMReadColor.

(** What [os.Stat] answers, as far as the program and the disk are
    concerned: no error; [ENOENT], the error [os.IsNotExist] holds of;
    [ENOTDIR], when a component of the path before the last is not a
    directory (nothing has this path, and [os.IsNotExist] is false);
    another error (permission, I/O), which leaves open whether the path
    exists. *)
Inductive StatResult : Type :=
| StatOK
| StatNotExist
| StatNotDir
| StatOtherError.

(** An [os.DirEntry]. *)
Record DirEntry : Type := mkDirEntry {
  Name : string;
  IsDir : bool
}.

(** The operating system, OpenCV, Tesseract and the tables of the Go
    runtime.  The directory changes over time: [os_ReadDir n] is the
    answer to the [n]-th call. *)
Record Env : Type := mkEnv {
  os_Stat : string -> StatResult;
  os_ReadDir : nat -> string -> result (list DirEntry);
  filepath_Join : string -> string -> string;
  gocv_IMRead : string -> IMReadFlag -> Mat;
  gocv_CvtColor_BGRToGray : Mat -> Mat;
  gocv_Resize : Mat -> nat -> nat -> Mat;
  gosseract_Text : string -> result string;
  unicode_caseLower : utf8.rune -> utf8.rune
}.

(* ===================================================================== *)
(** ** [SSIM]                                                            *)
(* ===================================================================== *)

(** The arithmetic [SSIM] is written in.  The program runs it on
    [float64]; the same text read over the rationals gives the exact value
    the floating-point result rounds. *)
Class Arith (F : Type) : Type := {
  ofUChar : Z -> F;
  lit_0 : F;
  lit_2 : F;
  lit_6_5025 : F;
  lit_58_5225 : F;
  fadd : F -> F -> F;
  fmul : F -> F -> F;
  fdiv : F -> F -> F
}.

#[export] Instance float64 : Arith float := {|
  ofUChar := fun v => PrimFloat.of_uint63 (Uint63.of_Z v);
  lit_0 := 0%float;
  lit_2 := 2%float;
  lit_6_5025 := 6.5025%float;
  lit_58_5225 := 58.5225%float;
  fadd := PrimFloat.add;
  fmul := PrimFloat.mul;
  fdiv := PrimFloat.div
|}.

#[export] Instance rational : Arith Q := {|
  ofUChar := inject_Z;
  lit_0 := 0%Q;
  lit_2 := 2%Q;
  lit_6_5025 := (65025 # 10000)%Q;
  lit_58_5225 := (585225 # 10000)%Q;
  fadd := Qplus;
  fmul := Qmult;
  fdiv := Qdiv
|}.

Section SSIM.

Context {F : Type} `{Arith F}.

(** The three running sums [sumL], [sumC], [sumS]. *)
Definition Sums : Type := (F * F * F)%type.

(** The body of the inner loop at pixel [(y, x)].  [math.Pow(I, 2)] is
    [I * I], with no rounding on the 8-bit values it is given. *)
Definition pixel (img1Gray img2Gray : Mat) (y x : nat) (sums : Sums) : Sums :=
  let '(sumL, sumC, sumS) := sums in
  let I1 := ofUChar (GetUCharAt img1Gray y x) in
  let I2 := ofUChar (GetUCharAt img2Gray y x) in
  let luminance := fmul I1 I2 in
  let contrast := fadd (fmul I1 I1) (fmul I2 I2) in
  let structure := fmul I1 I2 in
  (fadd sumL luminance, fadd sumC contrast, fadd sumS structure).

(** [for y := 0; y < height; y++ { for x := 0; x < width; x++ { ... } }] *)
Definition sumPixels (img1Gray img2Gray : Mat) (width height : nat) : Sums :=
  fold_left
    (fun sums y => fold_left (fun sums x => pixel img1Gray img2Gray y x sums)
                             (seq 0 width) sums)
    (seq 0 height) (lit_0, lit_0, lit_0).

Definition SSIM (e : Env) (img1 img2 : Mat) : F :=
  let width := Cols img1 in
  let height := Rows img1 in
  let C1 := lit_6_5025 in
  let C2 := lit_58_5225 in
  let img1Gray := gocv_CvtColor_BGRToGray e img1 in
  let img2Gray := gocv_CvtColor_BGRToGray e img2 in
  let '(sumL, sumC, sumS) := sumPixels img1Gray img2Gray width height in
  let L := fdiv (fadd (fmul lit_2 sumL) C1) (fadd sumC C1) in
  let C := fdiv (fadd (fmul lit_2 sumC) C2) (fadd sumS C2) in
  let ssimIndex := fmul L C in
  ssimIndex.

End SSIM.

(* ===================================================================== *)
(** ** The image accessor, the comparison and the text extractor         *)
(* ===================================================================== *)

(** [ValidateImage]. *)
Definition ValidateImage (e : Env) (imagePath : string) : result Mat :=
  match os_Stat e imagePath with
  | StatNotExist => Err ("image not found: " +:+ imagePath)
  | _ =>
      let img := gocv_IMRead e imagePath IMReadGrayScale in
      if Empty img then Err ("unable to read image: " +:+ imagePath)
      else Ok img
  end.

(** [CompareImages]. *)
Definition CompareImages (e : Env) (image1Path image2Path : string) : result float :=
  match ValidateImage e image1Path with
  | Err err => Err err
  | Ok img1 =>
      match ValidateImage e image2Path with
      | Err err => Err err
      | Ok img2 =>
          let img1Resized := gocv_Resize e img1 300 300 in
          let img2Resized := gocv_Resize e img2 300 300 in
          let ssimValue := SSIM (F := float) e img1Resized img2Resized in
          Ok ssimValue
      end
  end.

(** [ExtractTextWithEnglishAndNumbers]. *)
Definition ExtractTextWithEnglishAndNumbers (e : Env) (imagePath : string)
    : result string :=
  let img := gocv_IMRead e imagePath IMReadColor in
  if Empty img then Err ("unable to read image: " +:+ imagePath)
  else
    match gosseract_Text e imagePath with
    | Err err => Err err
    | Ok text =>
        let words := strings.Fields text in
        if (3 <? length words)%nat
        then Ok (nth (length words - 1) words EmptyString)
        else Ok EmptyString
    end.

(* ===================================================================== *)
(** ** [AnalyzeDirectory]                                                *)
(* ===================================================================== *)

(** What the program does that can be seen from outside, in order. *)
Inductive Event : Type :=
| EvLog (msg : string)               (** [log.Printf] *)
| EvPrintln (line : string)          (** [fmt.Println] *)
| EvExtract (path : string)          (** a call of the text extractor *)
| EvReadDir (dir : string)           (** a call of [os.ReadDir] *)
| EvGo (filename path : string)      (** [go func(path)] *)
| EvSleep.                           (** [time.Sleep(1 * time.Second)] *)

(** The line feed, Go's ["\n"]. *)
Definition LF : string := String "010" EmptyString.

(** Lines 170-173: the second line of the extracted text is printed when
    it is twelve bytes long. *)
Definition printCode (extractedText : string) : list Event :=
  let lines := strings.Split extractedText LF in
  if (1 <? length lines)%nat && (String.length (nth 1 lines EmptyString) =? 12)%nat
  then [EvPrintln (nth 1 lines EmptyString)]
  else [].

(** The goroutine from the result of [CompareImages] on. *)
Definition afterCompare (e : Env) (path : string) (compared : result float)
    : list Event :=
  match compared with
  | Err err => [EvLog ("Error comparing images: " +:+ err)]
  | Ok similarity =>
      if PrimFloat.ltb 0.8 similarity then
        EvExtract path ::
        match ExtractTextWithEnglishAndNumbers e path with
        | Err err => [EvLog ("Error extracting text: " +:+ err)]
        | Ok extractedText => printCode extractedText
        end
      else []
  end.

(** The body of [go func(path string) { ... }(filePath)], the deferred
    write to [processedFiles] apart. *)
Definition processFile (e : Env) (referenceImagePath path : string) : list Event :=
  afterCompare e path (CompareImages e path referenceImagePath).

(** Where the function [AnalyzeDirectory] stands. *)
Inductive Control : Type :=
| Initializing                         (** before [ValidateImage] *)
| Scanning                             (** at the top of [for { ... }] *)
| Ranging (files : list DirEntry)      (** in [for _, file := range files] *)
| Returned.                            (** after [return] *)

(** The state of the process. *)
Record Sys : Type := mkSys {
  control : Control;
  readDirCalls : nat;
  processedFiles : gmap string bool;
  goroutines : list (string * string);   (** running: [(filename, path)] *)
  trace : list Event                     (** oldest first *)
}.

Definition initial : Sys :=
  {| control := Initializing; readDirCalls := 0; processedFiles := ∅;
     goroutines := []; trace := [] |}.

(** [processedFiles[filename]]: a missing key reads as [false]. *)
Definition isProcessed (m : gmap string bool) (filename : string) : bool :=
  default false (m !! filename).

(** One turn of [for _, file := range files].  The read and the write of
    [processedFiles] are one step: the goroutines write nothing but [true]
    under a key that already reads [true], so no write of theirs between
    the two changes what the turn does. *)
Definition visit (e : Env) (directory : string) (file : DirEntry)
    (rest : list DirEntry) (s : Sys) : Sys :=
  if IsDir file then
    {| control := Ranging rest; readDirCalls := readDirCalls s;
       processedFiles := processedFiles s; goroutines := goroutines s;
       trace := trace s |}
  else
    let filename := Name file in
    let filePath := filepath_Join e directory filename in
    if isProcessed (processedFiles s) filename
       || negb (strings.HasSuffix
                  (strings.ToLower (unicode_caseLower e) filename) ".jpg")
    then
      {| control := Ranging rest; readDirCalls := readDirCalls s;
         processedFiles := processedFiles s; goroutines := goroutines s;
         trace := trace s |}
    else
      {| control := Ranging rest; readDirCalls := readDirCalls s;
         processedFiles := <[filename := true]> (processedFiles s);
         goroutines := goroutines s ++ [(filename, filePath)];
         trace := trace s ++ [EvGo filename filePath] |}.

(** One step of the function [AnalyzeDirectory] itself. *)
Definition watcherStep (e : Env) (directory referenceImagePath : string)
    (s : Sys) : Sys :=
  match control s with
  | Initializing =>
      match ValidateImage e referenceImagePath with
      | Err err =>
          {| control := Returned; readDirCalls := readDirCalls s;
             processedFiles := processedFiles s; goroutines := goroutines s;
             trace := trace s ++ [EvLog ("Reference image not found: " +:+ err)] |}
      | Ok _ =>
          {| control := Scanning; readDirCalls := readDirCalls s;
             processedFiles := processedFiles s; goroutines := goroutines s;
             trace := trace s |}
      end
  | Scanning =>
      match os_ReadDir e (readDirCalls s) directory with
      | Err err =>
          (* continue *)
          {| control := Scanning; readDirCalls := S (readDirCalls s);
             processedFiles := processedFiles s; goroutines := goroutines s;
             trace := trace s ++ [EvReadDir directory;
                                  EvLog ("Error reading directory: " +:+ err)] |}
      | Ok files =>
          {| control := Ranging files; readDirCalls := S (readDirCalls s);
             processedFiles := processedFiles s; goroutines := goroutines s;
             trace := trace s ++ [EvReadDir directory] |}
      end
  | Ranging [] =>
      {| control := Scanning; readDirCalls := readDirCalls s;
         processedFiles := processedFiles s; goroutines := goroutines s;
         trace := trace s ++ [EvSleep] |}
  | Ranging (file :: rest) => visit e directory file rest s
  | Returned => s
  end.

(** The [i]-th running goroutine runs to its end; its deferred function
    writes [processedFiles[filename] = true].  That write is all a
    goroutine does to the state it shares, so its body is one step, and
    its events enter the trace in their order.  A goroutine that hangs is
    one the schedule never finishes; when [AnalyzeDirectory] has returned
    the process is over and nothing moves. *)
Definition goroutineStep (e : Env) (referenceImagePath : string) (i : nat)
    (s : Sys) : Sys :=
  match control s, goroutines s !! i with
  | Returned, _ => s
  | _, None => s
  | _, Some (filename, path) =>
      {| control := control s; readDirCalls := readDirCalls s;
         processedFiles := <[filename := true]> (processedFiles s);
         goroutines := delete i (goroutines s);
         trace := trace s ++ processFile e referenceImagePath path |}
  end.

(** The scheduler's choices: the watcher moves, or a goroutine finishes. *)
Inductive Action : Type :=
| Watcher
| Finish (i : nat).

Definition step (e : Env) (directory referenceImagePath : string)
    (s : Sys) (a : Action) : Sys :=
  match a with
  | Watcher => watcherStep e directory referenceImagePath s
  | Finish i => goroutineStep e referenceImagePath i s
  end.

(** [AnalyzeDirectory(directory, referenceImagePath)] under a schedule. *)
Definition AnalyzeDirectory (e : Env) (directory referenceImagePath : string)
    (schedule : list Action) : Sys :=
  fold_left (step e directory referenceImagePath) schedule initial.

(* ===================================================================== *)
(** ** Vocabulary of the statements                                      *)
(* ===================================================================== *)

(** The bytes of a string, and the strings without a line feed. *)
Definition bytes (s : string) : list ascii := list_ascii_of_string s.

Definition LFbyte : ascii := "010"%char.

Definition noLF (s : string) : Prop := ~ In LFbyte (bytes s).

(** The first [k] bytes of [s] exist and are at least [0x80]: what follows
    the first byte of a rune of width [k + 1]. *)
Fixpoint highBytes (k : nat) (s : string) : Prop :=
  match k with
  | O => True
  | S k' =>
      match s with
      | EmptyString => False
      | String c rest => 0x80 <= utf8.byteOf c /\ highBytes k' rest
      end
  end.

Definition isPrintln (ev : Event) : bool :=
  match ev with EvPrintln _ => true | _ => false end.

Definition isReadDir (ev : Event) : bool :=
  match ev with EvReadDir _ => true | _ => false end.

(** The filenames a goroutine was started for, in order. *)
Fixpoint dispatched (evs : list Event) : list string :=
  match evs with
  | [] => []
  | EvGo filename _ :: evs' => filename :: dispatched evs'
  | _ :: evs' => dispatched evs'
  end.

(** The filter of the scan, in the words of the design: a file, whose
    lowercased name ends in [.jpg], not yet in the processed set. *)
Definition isCandidate (e : Env) (processed : gmap string bool) (file : DirEntry)
    : bool :=
  negb (IsDir file)
  && strings.HasSuffix (strings.ToLower (unicode_caseLower e) (Name file)) ".jpg"
  && negb (isProcessed processed (Name file)).

(** The sum of the squares of the pixels of [gray] inside a frame of
    [width] by [height]. *)
Definition sumSquares (gray : Mat) (width height : nat) : Z :=
  fold_left
    (fun acc y => fold_left (fun acc x => acc + GetUCharAt gray y x * GetUCharAt gray y x)
                            (seq 0 width) acc)
    (seq 0 height) 0.

(** Every running goroutine was started by a [go] in the trace, and every
    call of the text extractor is for a started path whose score passed
    the threshold. *)
Definition gated (e : Env) (referenceImagePath : string) (s : Sys) : Prop :=
  (forall filename path,
      In (filename, path) (goroutines s) -> In (EvGo filename path) (trace s))
  /\ (forall path,
         In (EvExtract path) (trace s) ->
         exists filename similarity,
           In (EvGo filename path) (trace s)
           /\ CompareImages e path referenceImagePath = Ok similarity
           /\ PrimFloat.ltb 0.8 similarity = true).

(** Every filename with a goroutine is in the processed set, and none has
    two goroutines. *)
Definition claimedOnce (s : Sys) : Prop :=
  NoDup (dispatched (trace s))
  /\ forall filename, In filename (dispatched (trace s)) ->
                      isProcessed (processedFiles s) filename = true.

(** The state after the [return] of line 130. *)
Definition gaveUp (err : error) : Sys :=
  {| control := Returned; readDirCalls := 0; processedFiles := ∅;
     goroutines := [];
     trace := [EvLog ("Reference image not found: " +:+ err)] |}.

(** In the loop: at its top or inside the range over a listing. *)
Definition inLoop (s : Sys) : Prop :=
  control s = Scanning \/ exists files, control s = Ranging files.

(** The three sums of [SSIM] for an image against itself, [z] being the
    sum of the squares of its pixels. *)
Definition sumsOfSquares (sums : Q * Q * Q) (z : Z) : Prop :=
  sums = (inject_Z z, inject_Z (2 * z), inject_Z z).

Definition isWatcher (a : Action) : bool :=
  match a with Watcher => true | Finish _ => false end.

(** The watcher alone, [n] steps. *)
Definition watcherSteps (e : Env) (directory referenceImagePath : string)
    (n : nat) (s : Sys) : Sys :=
  Nat.iter n (watcherStep e directory referenceImagePath) s.

(** *** A sample environment

    One white pixel stands for every readable image, [Resize] spreads the
    first pixel over the canvas, the reading of the directory fails the
    first time and lists four entries from then on, and Tesseract reads
    the three lines of [sampleText] off every image. *)

Definition shade (v : Z) (n : nat) : Mat :=
  {| Rows := n; Cols := n; data := repeat (repeat v n) n |}.

Definition white (n : nat) : Mat := shade 255 n.

Definition sampleText : string :=
  "HEADER" +:+ LF +:+ "ABCDEFG12345" +:+ LF +:+ "FOOTER".

Definition sampleListing : list DirEntry :=
  [ {| Name := "a.jpg"; IsDir := false |};
    {| Name := "b.JPG"; IsDir := false |};
    {| Name := "c.png"; IsDir := false |} ].

Definition sampleEnv : Env := {|
  os_Stat := fun p => if String.eqb p "missing.jpg" then StatNotExist else StatOK;
  os_ReadDir := fun n _ =>
    match n with
    | O => Err "open ./img: permission denied"
    | _ => Ok (sampleListing ++ [ {| Name := "d.jpg"; IsDir := true |} ])
    end;
  filepath_Join := fun d f => d +:+ "/" +:+ f;
  gocv_IMRead := fun p _ =>
    if String.eqb p "corrupt.jpg" then {| Rows := 0; Cols := 0; data := [] |}
    else white 1;
  gocv_CvtColor_BGRToGray := fun m => m;
  gocv_Resize := fun m w h =>
    {| Rows := h; Cols := w; data := repeat (repeat (GetUCharAt m 0 0) w) h |};
  gosseract_Text := fun _ => Ok sampleText;
  unicode_caseLower := fun r => r
|}.

(** What the answer of [os.Stat] tells about the disk: with no error the
    path exists, with [ENOENT] or [ENOTDIR] nothing has this path, and
    another error tells neither. *)
Definition onDisk (r : StatResult) : option bool :=
  match r with
  | StatOK => Some true
  | StatNotExist | StatNotDir => Some false
  | StatOtherError => None
  end.

(** The sample environment on a disk where [plain.txt] is a regular
    file: [plain.txt/x.jpg] names nothing, [os.Stat] fails on it with
    [ENOTDIR], and [gocv.IMRead] gives an empty matrix for it. *)
Definition notDirEnv : Env := {|
  os_Stat := fun p =>
    if String.eqb p "plain.txt/x.jpg" then StatNotDir else os_Stat sampleEnv p;
  os_ReadDir := os_ReadDir sampleEnv;
  filepath_Join := filepath_Join sampleEnv;
  gocv_IMRead := fun p flag =>
    if String.eqb p "plain.txt/x.jpg" then {| Rows := 0; Cols := 0; data := [] |}
    else gocv_IMRead sampleEnv p flag;
  gocv_CvtColor_BGRToGray := gocv_CvtColor_BGRToGray sampleEnv;
  gocv_Resize := gocv_Resize sampleEnv;
  gosseract_Text := gosseract_Text sampleEnv;
  unicode_caseLower := unicode_caseLower sampleEnv
|}.

(* ===================================================================== *)
(** ** Vocabulary of the further properties                              *)
(* ===================================================================== *)

(** The sums of two images over the rationals: whole numbers [l] and [c]
    with [0 <= l] and [2 * l <= c], since [2 * a * b <= a * a + b * b]. *)
Definition wholeSums (sums : Q * Q * Q) : Prop :=
  exists l c : Z, sums = (inject_Z l, inject_Z c, inject_Z l) /\ 0 <= l /\ 2 * l <= c.

(** No byte of [s] is one of the six ASCII white-space bytes. *)
Definition noSpace (s : string) : Prop :=
  forall c, In c (bytes s) -> strings.asciiSpace c = false.

(** [w] is a contiguous piece of [s]. *)
Definition within (w s : string) : Prop :=
  exists pre post, s = pre +:+ w +:+ post.

(** The field under construction is not empty and holds no white space. *)
Definition fieldSoFar (cur : option string) : Prop :=
  forall w, cur = Some w -> w <> EmptyString /\ noSpace w.

(** A word cut out of [s] by a scan that has [cur] in hand: it continues
    [cur] with the start of [s], or it is a piece of [s]. *)
Definition cutFrom (cur : option string) (s w : string) : Prop :=
  w <> EmptyString /\ noSpace w
  /\ ((exists had more post, cur = Some had /\ w = had +:+ more /\ s = more +:+ post)
      \/ within w s).

(** What [strings.ToLower] does to a byte of an ASCII string. *)
Definition lowerByte (c : ascii) : ascii :=
  if strings.isUpperASCII c then utf8.toByte (utf8.byteOf c + (0x61 - 0x41)) else c.

(** The spellings of the extension that the scan accepts. *)
Definition jpgSpellings : list string :=
  [".jpg"; ".jpG"; ".jPg"; ".jPG"; ".Jpg"; ".JpG"; ".JPg"; ".JPG"].

(** The processed set holds the dispatched filenames, each with [true],
    and nothing else; the running goroutines are for dispatched names. *)
Definition processedExactly (s : Sys) : Prop :=
  (forall filename,
      (processedFiles s !! filename = Some true
       /\ In filename (dispatched (trace s)))
      \/ (processedFiles s !! filename = None
          /\ ~ In filename (dispatched (trace s))))
  /\ forall filename path,
       In (filename, path) (goroutines s) -> In filename (dispatched (trace s)).

(** [os.ReadDir] listed [file] for [directory] in one of the calls made. *)
Definition wasListed (e : Env) (directory : string) (s : Sys) (file : DirEntry)
    : Prop :=
  exists n files,
    (n < readDirCalls s)%nat
    /\ os_ReadDir e n directory = Ok files
    /\ In file files.

(** Every [go] of the trace is for a listed file with the extension, under
    the joined path; the entries still to range over were listed; and every
    [os.ReadDir] was for [directory]. *)
Definition fromListings (e : Env) (directory : string) (s : Sys) : Prop :=
  (forall filename path,
      In (EvGo filename path) (trace s) ->
      path = filepath_Join e directory filename
      /\ strings.HasSuffix
           (strings.ToLower (unicode_caseLower e) filename) ".jpg" = true
      /\ wasListed e directory s {| Name := filename; IsDir := false |})
  /\ (forall rest file,
         control s = Ranging rest -> In file rest -> wasListed e directory s file)
  /\ (forall dir, In (EvReadDir dir) (trace s) -> dir = directory).

(** [time.Sleep] at the end of a turn of the loop. *)
Definition isSleep (ev : Event) : bool :=
  match ev with EvSleep => true | _ => false end.

(** The log line of line 136. *)
Definition isListingError (ev : Event) : bool :=
  match ev with
  | EvLog msg => strings.HasPrefix msg "Error reading directory: "
  | _ => false
  end.

(** The number of events of a trace that [p] holds of. *)
Definition countIf (p : Event -> bool) (evs : list Event) : nat :=
  length (List.filter p evs).

(** 1 while the watcher ranges over a listing, 0 otherwise. *)
Definition ranging (s : Sys) : nat :=
  match control s with Ranging _ => 1%nat | _ => 0%nat end.

(** Among the first [n] answers of [os.ReadDir] for [directory], the
    number of errors. *)
Definition failedCalls (e : Env) (directory : string) (n : nat) : nat :=
  length (List.filter
            (fun k => match os_ReadDir e k directory with
                      | Err _ => true
                      | Ok _ => false
                      end)
            (seq 0 n)).

(** Every call of [os.ReadDir] is in the trace; the errors logged are the
    errors [os.ReadDir] gave; and each call has failed, or was ranged over
    and slept after, or is ranged over now. *)
Definition accounted (e : Env) (directory : string) (s : Sys) : Prop :=
  countIf isReadDir (trace s) = readDirCalls s
  /\ countIf isListingError (trace s) = failedCalls e directory (readDirCalls s)
  /\ (countIf isSleep (trace s) + ranging s + countIf isListingError (trace s))%nat
     = readDirCalls s.

(** The steps of the watcher in a schedule. *)
Definition watcherTurns (schedule : list Action) : nat :=
  length (List.filter isWatcher schedule).

(** A name in the processed set, and the name of a running goroutine, has
    its [go] in the trace, under the joined path. *)
Definition claimed (e : Env) (directory : string) (s : Sys) : Prop :=
  (forall filename,
      isProcessed (processedFiles s) filename = true ->
      In (EvGo filename (filepath_Join e directory filename)) (trace s))
  /\ (forall filename path,
         In (filename, path) (goroutines s) ->
         In (EvGo filename (filepath_Join e directory filename)) (trace s)).

(** [gocv.Resize] gives a matrix of the size it was asked for. *)
Definition resizes (e : Env) : Prop :=
  forall (img : Mat) (w h : nat),
    Cols (gocv_Resize e img w h) = w /\ Rows (gocv_Resize e img w h) = h.

(* ===================================================================== *)
(** ** Facts about the string routines                                   *)
(* ===================================================================== *)

Lemma bytes_snoc s c : bytes (strings.snoc s c) = bytes s ++ [c].
Proof.
  unfold strings.snoc, bytes. induction s as [|a s IH]; simpl; [reflexivity|].
  now rewrite IH.
Qed.

Lemma noLF_empty : noLF EmptyString.
Proof. unfold noLF; simpl; tauto. Qed.

Lemma noLF_snoc s c : noLF s -> c <> LFbyte -> noLF (strings.snoc s c).
Proof.
  unfold noLF. rewrite bytes_snoc, in_app_iff. simpl. intuition congruence.
Qed.

Lemma noLF_push cur c :
  Forall noLF (strings.flush cur) -> c <> LFbyte ->
  Forall noLF (strings.flush (strings.push cur c)).
Proof.
  intros Hcur Hc. unfold strings.push. simpl. constructor; [|constructor].
  apply noLF_snoc; [|exact Hc].
  destruct cur as [w|]; simpl in *; [now inversion Hcur | apply noLF_empty].
Qed.

Lemma byteOf_range c : 0 <= utf8.byteOf c < 256.
Proof.
  unfold utf8.byteOf. pose proof (N_ascii_bounded c). lia.
Qed.

Lemma first_cases b :
  (b < 0x80 /\ utf8.first b = utf8.as_)
  \/ (0x80 <= b /\ utf8.first b = utf8.xx)
  \/ (0x80 <= b /\ In (utf8.first b)
        [utf8.s1; utf8.s2; utf8.s3; utf8.s4; utf8.s5; utf8.s6; utf8.s7]).
Proof.
  unfold utf8.first.
  repeat match goal with
         | |- context [if ?x <? ?k then _ else _] => destruct (Z.ltb_spec x k)
         | |- context [if ?x =? ?k then _ else _] => destruct (Z.eqb_spec x k)
         end;
    try (left; split; [lia | reflexivity]);
    try (right; left; split; [lia | reflexivity]);
    right; right; (split; [lia | simpl; tauto]).
Qed.

(** Evaluates the table lookups once the entry of [first] is known. *)
Ltac eval_entry :=
  repeat match goal with
         | |- context [Z.land ?a 7] =>
             let v := eval vm_compute in (Z.land a 7) in
             change (Z.land a 7) with v
         | |- context [utf8.acceptRanges ?a] =>
             let v := eval vm_compute in (utf8.acceptRanges a) in
             change (utf8.acceptRanges a) with v
         | |- context [utf8.as_ <=? ?a] =>
             let v := eval vm_compute in (utf8.as_ <=? a) in
             change (utf8.as_ <=? a) with v
         | |- context [?a =? utf8.xx] =>
             let v := eval vm_compute in (a =? utf8.xx) in
             change (a =? utf8.xx) with v
         | |- context [?a <=? 2] =>
             let v := eval vm_compute in (a <=? 2) in change (a <=? 2) with v
         | |- context [?a <=? 3] =>
             let v := eval vm_compute in (a <=? 3) in change (a <=? 3) with v
         end;
  cbn [fst snd].

(** Splits on the tests and on the bytes present, down to the pairs
    returned. *)
Ltac decode_cases :=
  repeat match goal with
         | |- context [if (?x <? ?lo) || (?hi <? ?x) then _ else _] =>
             let E := fresh "E" in
             destruct ((x <? lo) || (hi <? x)) eqn:E;
             [| apply orb_false_elim in E; destruct E as [?%Z.ltb_ge ?%Z.ltb_ge]]
         | |- context [if ?x <? ?k then _ else _] => destruct (Z.ltb_spec x k)
         | |- context [match ?s with EmptyString => _ | String _ _ => _ end] =>
             destruct s
         end.

(** The shape of a decoded rune: a byte below [0x80] is a rune of its own,
    and the bytes past the first of a wider rune are all above it. *)
Lemma DecodeRuneInString_shape c rest r size :
  utf8.DecodeRuneInString (String c rest) = (r, size) ->
  highBytes (Nat.pred size) rest /\ (utf8.byteOf c < 0x80 -> r = utf8.byteOf c).
Proof.
  unfold utf8.DecodeRuneInString.
  destruct (first_cases (utf8.byteOf c)) as [[Hlt ->] | [[Hge ->] | [Hge Hin]]].
  - eval_entry. intros [= <- <-]. simpl. tauto.
  - eval_entry. intros [= <- <-]. simpl. split; [exact I|].
    lia.
  - simpl in Hin.
    repeat (destruct Hin as [<- | Hin]; [| try contradiction]).
    all: eval_entry; decode_cases; intros [= <- <-]; simpl.
    all: unfold utf8.locb in *; repeat split; lia.
Qed.

Lemma fieldsFuncFrom_noLF (f : utf8.rune -> bool) :
  f 10 = true ->
  forall s skip cur,
    highBytes skip s -> Forall noLF (strings.flush cur) ->
    Forall noLF (strings.fieldsFuncFrom f skip cur s).
Proof.
  intros Hf. induction s as [|c rest IH]; intros skip cur Hskip Hcur.
  - exact Hcur.
  - destruct skip as [|k]; cbn [strings.fieldsFuncFrom].
    + destruct (utf8.DecodeRuneInString (String c rest)) as [r size] eqn:Hdec.
      apply DecodeRuneInString_shape in Hdec as [Hhigh Hlow].
      destruct (f r) eqn:Hfr.
      * apply Forall_app. split; [exact Hcur|].
        apply IH; [exact Hhigh | constructor].
      * apply IH; [exact Hhigh|].
        apply noLF_push; [exact Hcur|].
        intros ->. rewrite Hlow in Hfr by (vm_compute; reflexivity).
        change (utf8.byteOf LFbyte) with 10 in Hfr. congruence.
    + destruct Hskip as [Hc Hskip].
      apply IH; [exact Hskip|].
      destruct cur as [w|]; [|constructor].
      apply noLF_push; [exact Hcur|].
      intros ->. vm_compute in Hc. now apply Hc.
Qed.

Lemma fieldsASCII_noLF s :
  forall cur, Forall noLF (strings.flush cur) ->
              Forall noLF (strings.fieldsASCII cur s).
Proof.
  induction s as [|c rest IH]; intros cur Hcur; cbn [strings.fieldsASCII].
  - exact Hcur.
  - destruct (strings.asciiSpace c) eqn:Hsp.
    + apply Forall_app. split; [exact Hcur | apply IH; constructor].
    + apply IH, noLF_push; [exact Hcur|]. intros ->. discriminate Hsp.
Qed.

(** No word cut out by [strings.Fields] holds a line feed. *)
Lemma Fields_noLF text : Forall noLF (strings.Fields text).
Proof.
  unfold strings.Fields, strings.FieldsFunc.
  destruct (utf8.RuneSelf <=? strings.setBits text).
  - apply fieldsFuncFrom_noLF; [reflexivity | exact I | constructor].
  - apply fieldsASCII_noLF. constructor.
Qed.

Lemma HasPrefix_LF c rest :
  strings.HasPrefix (String c rest) LF = Ascii.eqb c LFbyte.
Proof.
  unfold strings.HasPrefix, LF, LFbyte.
  destruct rest; cbn; destruct (Ascii.eqb c "010"); reflexivity.
Qed.

Lemma snoc_append cur c rest :
  strings.snoc cur c +:+ rest = cur +:+ String c rest.
Proof.
  unfold strings.snoc. induction cur as [|a cur IH]; [reflexivity|].
  change (String a ((cur +:+ String c EmptyString) +:+ rest)
          = String a (cur +:+ String c rest)).
  f_equal. exact IH.
Qed.

Lemma append_empty_r (s : string) : s +:+ EmptyString = s.
Proof.
  induction s as [|a s IH]; [reflexivity|].
  change (String a (s +:+ EmptyString) = String a s). f_equal. exact IH.
Qed.

Lemma splitFrom_noLF s :
  forall cur, noLF s -> strings.splitFrom LF 0 cur s = [cur +:+ s].
Proof.
  induction s as [|c rest IH]; intros cur Hs; cbn [strings.splitFrom].
  - now rewrite append_empty_r.
  - rewrite HasPrefix_LF. destruct (Ascii.eqb_spec c LFbyte) as [-> | Hne].
    + exfalso. apply Hs. left. reflexivity.
    + rewrite IH, snoc_append; [reflexivity|].
      intros Hin. apply Hs. right. exact Hin.
Qed.

(** A text without a line feed is a single line. *)
Lemma Split_noLF s : noLF s -> strings.Split s LF = [s].
Proof. intros Hs. unfold strings.Split. simpl. now rewrite splitFrom_noLF. Qed.

Lemma nth_last (words : list string) :
  nth (length words - 1) words EmptyString = List.last words EmptyString.
Proof.
  induction words as [|w [|w' ws] IH]; try reflexivity.
  change (List.last (w :: w' :: ws) EmptyString) with (List.last (w' :: ws) EmptyString).
  rewrite <- IH. simpl. now rewrite Nat.sub_0_r.
Qed.

(* ===================================================================== *)
(** ** Facts about the program                                           *)
(* ===================================================================== *)

(** Splits on every test and every matched value the goal branches on. *)
Ltac split_cases :=
  repeat match goal with
         | |- context [match ?x with _ => _ end] => destruct x
         end.

(** A property that holds at the start and that every step of the watcher
    and every goroutine that finishes keeps holds under every schedule. *)
Lemma AnalyzeDirectory_invariant (e : Env) (directory referenceImagePath : string)
    (P : Sys -> Prop) :
  P initial ->
  (forall s, P s -> P (watcherStep e directory referenceImagePath s)) ->
  (forall s i, P s -> P (goroutineStep e referenceImagePath i s)) ->
  forall schedule, P (AnalyzeDirectory e directory referenceImagePath schedule).
Proof.
  intros Hinit Hwatch Hgo schedule. unfold AnalyzeDirectory.
  generalize initial Hinit. induction schedule as [|a schedule IH]; intros s Hs.
  - exact Hs.
  - cbn [fold_left]. apply IH. destruct a; cbn [step]; auto.
Qed.

(** What the text extractor returns on success. *)
Lemma Extract_word (e : Env) (imagePath extracted : string) :
  ExtractTextWithEnglishAndNumbers e imagePath = Ok extracted ->
  exists text,
    gosseract_Text e imagePath = Ok text
    /\ (((length (strings.Fields text) <= 3)%nat /\ extracted = EmptyString)
        \/ ((3 < length (strings.Fields text))%nat
            /\ extracted = List.last (strings.Fields text) EmptyString)).
Proof.
  unfold ExtractTextWithEnglishAndNumbers.
  destruct (Empty _); [discriminate|].
  destruct (gosseract_Text e imagePath) as [text|err]; [|discriminate].
  intros Hret. exists text. split; [reflexivity|].
  destruct (Nat.ltb_spec 3 (length (strings.Fields text))) as [Hlt|Hge];
    injection Hret as <-.
  - right. split; [exact Hlt | apply nth_last].
  - left. split; [exact Hge | reflexivity].
Qed.

Lemma Extract_noLF (e : Env) (imagePath extracted : string) :
  ExtractTextWithEnglishAndNumbers e imagePath = Ok extracted -> noLF extracted.
Proof.
  intros Hret. apply Extract_word in Hret as (text & _ & [[_ ->] | [Hlt ->]]).
  - apply noLF_empty.
  - pose proof (Fields_noLF text) as Hall.
    rewrite List.Forall_forall in Hall. apply Hall.
    destruct (exists_last (l := strings.Fields text)) as (front & w & ->).
    { intros Hnil. rewrite Hnil in Hlt. simpl in Hlt. lia. }
    rewrite last_last. apply in_or_app. right. left. reflexivity.
Qed.

Lemma printCode_one_line (extractedText : string) :
  noLF extractedText -> printCode extractedText = [].
Proof.
  intros Hs. unfold printCode. now rewrite Split_noLF.
Qed.

Lemma afterCompare_silent (e : Env) (path : string) (compared : result float) :
  forallb (fun ev => negb (isPrintln ev)) (afterCompare e path compared) = true.
Proof.
  unfold afterCompare. destruct compared as [similarity|err]; [|reflexivity].
  destruct (PrimFloat.ltb 0.8 similarity); [|reflexivity].
  destruct (ExtractTextWithEnglishAndNumbers e path) as [extracted|err] eqn:Hx;
    [|reflexivity].
  now rewrite printCode_one_line by (eapply Extract_noLF; exact Hx).
Qed.

Lemma watcherStep_silent (e : Env) (directory referenceImagePath : string) (s : Sys) :
  forallb (fun ev => negb (isPrintln ev)) (trace s) = true ->
  forallb (fun ev => negb (isPrintln ev))
          (trace (watcherStep e directory referenceImagePath s)) = true.
Proof.
  intros Hs. unfold watcherStep, visit.
  split_cases;
    cbn [trace]; rewrite ?forallb_app, ?Hs; reflexivity.
Qed.

Lemma goroutineStep_silent (e : Env) (referenceImagePath : string) (i : nat) (s : Sys) :
  forallb (fun ev => negb (isPrintln ev)) (trace s) = true ->
  forallb (fun ev => negb (isPrintln ev))
          (trace (goroutineStep e referenceImagePath i s)) = true.
Proof.
  intros Hs. unfold goroutineStep.
  destruct (control s), (goroutines s !! i) as [[filename path]|];
    try exact Hs; cbn [trace];
    rewrite forallb_app, Hs; apply afterCompare_silent.
Qed.

(* ===================================================================== *)
(** ** The text extractor and the parsing rule                           *)
(* ===================================================================== *)

(** C2. Whatever Tesseract reads, the string [ExtractTextWithEnglishAndNumbers]
    returns on success is the empty string (three words or fewer) or the
    last word of the text; it holds no line feed, so [strings.Split] on the
    line feed gives back that one string, the test on a second line of
    twelve bytes fails, and under every schedule the trace of
    [AnalyzeDirectory] holds no [fmt.Println]. *)
Theorem extracted_text_is_one_line
    (e : Env) (imagePath directory referenceImagePath : string)
    (schedule : list Action) :
  match ExtractTextWithEnglishAndNumbers e imagePath with
  | Err _ => True
  | Ok extracted =>
      (exists text,
          gosseract_Text e imagePath = Ok text
          /\ (((length (strings.Fields text) <= 3)%nat /\ extracted = EmptyString)
              \/ ((3 < length (strings.Fields text))%nat
                  /\ extracted = List.last (strings.Fields text) EmptyString)))
      /\ noLF extracted
      /\ strings.Split extracted LF = [extracted]
      /\ length (strings.Split extracted LF) = 1%nat
      /\ printCode extracted = []
  end
  /\ forallb (fun ev => negb (isPrintln ev))
       (trace (AnalyzeDirectory e directory referenceImagePath schedule)) = true.
Proof.
  split.
  - destruct (ExtractTextWithEnglishAndNumbers e imagePath) as [extracted|err] eqn:Hx;
      [|exact I].
    pose proof (Extract_noLF _ _ _ Hx) as Hno.
    repeat split.
    + now apply Extract_word.
    + exact Hno.
    + now apply Split_noLF.
    + now rewrite Split_noLF.
    + now apply printCode_one_line.
  - apply AnalyzeDirectory_invariant with
      (P := fun s => forallb (fun ev => negb (isPrintln ev)) (trace s) = true).
    + reflexivity.
    + apply watcherStep_silent.
    + intros s i. apply goroutineStep_silent.
Qed.

(** C1. A file passes the similarity gate and Tesseract reads the three
    lines HEADER, ABCDEFG12345, FOOTER off it.  The rule of lines 170-173
    applied to that text prints the second line (and nothing when the
    second line has 11 or 13 bytes); the goroutine applies it to what
    [ExtractTextWithEnglishAndNumbers] made of the text, which is the
    empty string (the text has three words, not more than three), and
    prints nothing. *)
Theorem second_line_is_lost (e : Env) (path : string) (similarity : float) :
  PrimFloat.ltb 0.8 similarity = true ->
  Empty (gocv_IMRead e path IMReadColor) = false ->
  gosseract_Text e path = Ok sampleText ->
  printCode sampleText = [EvPrintln "ABCDEFG12345"]
  /\ printCode ("HEADER" +:+ LF +:+ "ABCDEFG1234" +:+ LF +:+ "FOOTER") = []
  /\ printCode ("HEADER" +:+ LF +:+ "ABCDEFG123456" +:+ LF +:+ "FOOTER") = []
  /\ strings.Fields sampleText = ["HEADER"; "ABCDEFG12345"; "FOOTER"]
  /\ ExtractTextWithEnglishAndNumbers e path = Ok EmptyString
  /\ afterCompare e path (Ok similarity) = [EvExtract path].
Proof.
  intros Hgate Himg Htext.
  assert (Hx : ExtractTextWithEnglishAndNumbers e path = Ok EmptyString).
  { unfold ExtractTextWithEnglishAndNumbers. rewrite Himg, Htext. reflexivity. }
  do 4 (split; [reflexivity|]). split; [exact Hx|].
  unfold afterCompare. rewrite Hgate, Hx. reflexivity.
Qed.

Lemma second_line_is_lost_witness :
  ExtractTextWithEnglishAndNumbers sampleEnv "./img/a.jpg" = Ok EmptyString
  /\ afterCompare sampleEnv "./img/a.jpg" (Ok 0.9%float) = [EvExtract "./img/a.jpg"].
Proof.
  apply (second_line_is_lost sampleEnv "./img/a.jpg" 0.9%float); reflexivity.
Defined.

(* ===================================================================== *)
(** ** The similarity gate                                               *)
(* ===================================================================== *)

Lemma processFile_extract (e : Env) (referenceImagePath path path' : string) :
  In (EvExtract path') (processFile e referenceImagePath path) ->
  path' = path
  /\ exists similarity,
       CompareImages e path referenceImagePath = Ok similarity
       /\ PrimFloat.ltb 0.8 similarity = true.
Proof.
  unfold processFile, afterCompare, printCode.
  destruct (CompareImages e path referenceImagePath) as [similarity|err];
    [|intros [[=] | []]].
  destruct (PrimFloat.ltb 0.8 similarity) eqn:Hgate; [|intros []].
  intros [[= <-] | Hin]; [split; [reflexivity | eauto]|].
  exfalso. revert Hin.
  split_cases; cbn [In]; intuition discriminate.
Qed.

Lemma watcherStep_grows (e : Env) (directory referenceImagePath : string) (s : Sys) :
  exists evs,
    trace (watcherStep e directory referenceImagePath s) = trace s ++ evs
    /\ (forall path, ~ In (EvExtract path) evs)
    /\ (forall job, In job (goroutines (watcherStep e directory referenceImagePath s)) ->
                    In job (goroutines s) \/ In (EvGo (fst job) (snd job)) evs).
Proof.
  unfold watcherStep, visit.
  split_cases;
    cbn [trace goroutines];
    try (exists []; rewrite app_nil_r; split; [reflexivity|];
         split; [intros path [] | intros job Hjob; left; exact Hjob]);
    eexists; (split; [reflexivity|]);
    (split; [intros path Hin; cbn [In] in Hin; intuition discriminate|]);
    intros job Hjob; try (left; exact Hjob).
  apply in_app_or in Hjob as [Hjob | [<- | []]]; [left; exact Hjob|].
  right. left. reflexivity.
Qed.

Lemma watcherStep_gated (e : Env) (directory referenceImagePath : string) (s : Sys) :
  gated e referenceImagePath s ->
  gated e referenceImagePath (watcherStep e directory referenceImagePath s).
Proof.
  intros [Hjobs Hext].
  destruct (watcherStep_grows e directory referenceImagePath s)
    as (evs & Htrace & Hnone & Hgo).
  split; rewrite Htrace.
  - intros filename path Hjob. apply in_or_app.
    destruct (Hgo _ Hjob) as [Hold | Hnew]; [left; now apply Hjobs | right; exact Hnew].
  - intros path [Hold | Hnew]%in_app_or; [|now apply Hnone in Hnew].
    destruct (Hext path Hold) as (filename & similarity & Hev & Hrest).
    exists filename, similarity. split; [apply in_or_app; left; exact Hev | exact Hrest].
Qed.

Lemma goroutineStep_gated (e : Env) (referenceImagePath : string) (i : nat) (s : Sys) :
  gated e referenceImagePath s ->
  gated e referenceImagePath (goroutineStep e referenceImagePath i s).
Proof.
  intros Hs. unfold goroutineStep.
  destruct (control s), (goroutines s !! i) as [[filename path]|] eqn:Hi;
    try exact Hs.
  all: destruct Hs as [Hjobs Hext]; split; cbn [trace goroutines].
  all: try (intros f p Hjob; apply in_or_app; left; apply Hjobs;
            apply list_elem_of_In; apply list_elem_of_In in Hjob;
            eapply list_elem_of_delete_inv; exact Hjob).
  all: intros p [Hold | Hnew]%in_app_or.
  all: try (destruct (Hext p Hold) as (f & similarity & Hev & Hrest);
            exists f, similarity; split; [apply in_or_app; left; exact Hev | exact Hrest]).
  all: apply processFile_extract in Hnew as [-> Hgate];
    destruct Hgate as (similarity & Hrest);
    exists filename, similarity; split; [|exact Hrest];
    apply in_or_app; left; apply Hjobs;
    apply list_elem_of_In; eapply list_elem_of_lookup_2; exact Hi.
Qed.

(** C5. In the goroutine of a file the text extractor is called if and
    only if [CompareImages] gave a score and that score is greater than
    0.8; with the score 0.75 the goroutine does nothing at all.  Under
    every schedule, a call of the text extractor in the trace of
    [AnalyzeDirectory] is for the path of a goroutine that was started and
    whose score is greater than 0.8. *)
Theorem extractor_runs_iff_above_threshold
    (e : Env) (directory referenceImagePath path : string)
    (schedule : list Action) :
  (In (EvExtract path) (processFile e referenceImagePath path)
   <-> exists similarity,
        CompareImages e path referenceImagePath = Ok similarity
        /\ PrimFloat.ltb 0.8 similarity = true)
  /\ afterCompare e path (Ok 0.75%float) = []
  /\ (In (EvExtract path)
         (trace (AnalyzeDirectory e directory referenceImagePath schedule)) ->
      exists filename similarity,
        In (EvGo filename path)
           (trace (AnalyzeDirectory e directory referenceImagePath schedule))
        /\ CompareImages e path referenceImagePath = Ok similarity
        /\ PrimFloat.ltb 0.8 similarity = true).
Proof.
  split; [|split; [reflexivity|]].
  - split.
    + intros Hin. now apply processFile_extract in Hin as [_ Hgate].
    + intros (similarity & Hcmp & Hgate).
      unfold processFile, afterCompare. rewrite Hcmp, Hgate. left. reflexivity.
  - assert (Hs : gated e referenceImagePath
                   (AnalyzeDirectory e directory referenceImagePath schedule)).
    { apply AnalyzeDirectory_invariant.
      - split; [intros f p [] | intros p []].
      - apply watcherStep_gated.
      - intros s i. apply goroutineStep_gated. }
    destruct Hs as [_ Hext]. apply Hext.
Qed.

(* ===================================================================== *)
(** ** The processed set and the scan                                    *)
(* ===================================================================== *)

Lemma dispatched_app (evs evs' : list Event) :
  dispatched (evs ++ evs') = dispatched evs ++ dispatched evs'.
Proof.
  induction evs as [|ev evs IH]; [reflexivity|].
  destruct ev; cbn [dispatched app]; rewrite IH; reflexivity.
Qed.

Lemma dispatched_processFile (e : Env) (referenceImagePath path : string) :
  dispatched (processFile e referenceImagePath path) = [].
Proof.
  unfold processFile, afterCompare, printCode.
  split_cases; reflexivity.
Qed.

Lemma isProcessed_insert (m : gmap string bool) (k filename : string) :
  isProcessed m filename = true ->
  isProcessed (<[k := true]> m) filename = true.
Proof.
  unfold isProcessed. intros Hm.
  destruct (decide (k = filename)) as [-> | Hne].
  - now rewrite lookup_insert_eq.
  - now rewrite lookup_insert_ne.
Qed.

Lemma visit_claimedOnce (e : Env) (directory : string) (file : DirEntry)
    (rest : list DirEntry) (s : Sys) :
  claimedOnce s -> claimedOnce (visit e directory file rest s).
Proof.
  intros [Hnodup Hin]. unfold visit.
  destruct (IsDir file); [split; assumption|].
  destruct (isProcessed (processedFiles s) (Name file)) eqn:Hseen;
    [split; assumption|].
  destruct (strings.HasSuffix _ _); cbn [orb negb]; [|split; assumption].
  split; cbn [trace processedFiles]; rewrite dispatched_app; cbn [dispatched].
  - apply NoDup_app. split; [exact Hnodup|]. split.
    + intros filename Hold Hnew.
      apply list_elem_of_In in Hold. apply list_elem_of_In in Hnew.
      destruct Hnew as [<- | []]. apply Hin in Hold. congruence.
    + apply NoDup_singleton.
  - intros filename [Hold | [<- | []]]%in_app_or.
    + apply isProcessed_insert, Hin, Hold.
    + unfold isProcessed. now rewrite lookup_insert_eq.
Qed.

Lemma watcherStep_claimedOnce (e : Env) (directory referenceImagePath : string)
    (s : Sys) :
  claimedOnce s -> claimedOnce (watcherStep e directory referenceImagePath s).
Proof.
  intros Hs. unfold watcherStep.
  destruct (control s) as [| |[|file rest]|].
  - destruct (ValidateImage e referenceImagePath); destruct Hs as [Hnodup Hin];
      split; cbn [trace processedFiles]; rewrite ?dispatched_app, ?app_nil_r;
      assumption.
  - destruct (os_ReadDir e (readDirCalls s) directory); destruct Hs as [Hnodup Hin];
      split; cbn [trace processedFiles]; rewrite ?dispatched_app, ?app_nil_r;
      assumption.
  - destruct Hs as [Hnodup Hin].
    split; cbn [trace processedFiles]; rewrite ?dispatched_app, ?app_nil_r;
      assumption.
  - now apply visit_claimedOnce.
  - exact Hs.
Qed.

Lemma goroutineStep_claimedOnce (e : Env) (referenceImagePath : string) (i : nat)
    (s : Sys) :
  claimedOnce s -> claimedOnce (goroutineStep e referenceImagePath i s).
Proof.
  intros Hs. unfold goroutineStep.
  destruct (control s), (goroutines s !! i) as [[filename path]|]; try exact Hs.
  all: destruct Hs as [Hnodup Hin]; split; cbn [trace processedFiles];
    rewrite dispatched_app, dispatched_processFile, app_nil_r; [exact Hnodup|].
  all: intros f Hf; apply isProcessed_insert, Hin, Hf.
Qed.

(** C6. Under every schedule of the watcher and of the goroutines, over
    any number of scans, no filename is given two goroutines: the
    filenames dispatched so far are pairwise distinct, each of them reads
    as [true] in [processedFiles], and a later turn of the scan over an
    entry of that name starts nothing. *)
Theorem dispatched_at_most_once
    (e : Env) (directory referenceImagePath : string) (schedule : list Action) :
  let s := AnalyzeDirectory e directory referenceImagePath schedule in
  NoDup (dispatched (trace s))
  /\ forall filename,
       In filename (dispatched (trace s)) ->
       isProcessed (processedFiles s) filename = true
       /\ forall isDir rest,
            let s' := visit e directory {| Name := filename; IsDir := isDir |} rest s in
            trace s' = trace s /\ goroutines s' = goroutines s
            /\ processedFiles s' = processedFiles s.
Proof.
  intros s.
  assert (Hs : claimedOnce s).
  { apply AnalyzeDirectory_invariant.
    - split; [constructor | intros filename []].
    - apply watcherStep_claimedOnce.
    - intros s0 i. apply goroutineStep_claimedOnce. }
  destruct Hs as [Hnodup Hin]. split; [exact Hnodup|].
  intros filename Hf. split; [now apply Hin|].
  intros isDir rest. unfold visit. cbn [IsDir Name].
  destruct isDir; [repeat split|].
  rewrite (Hin filename Hf). repeat split.
Qed.

Lemma visit_isCandidate (e : Env) (directory : string) (file : DirEntry)
    (rest : list DirEntry) (s : Sys) :
  visit e directory file rest s =
  if isCandidate e (processedFiles s) file then
    {| control := Ranging rest; readDirCalls := readDirCalls s;
       processedFiles := <[Name file := true]> (processedFiles s);
       goroutines := goroutines s
                     ++ [(Name file, filepath_Join e directory (Name file))];
       trace := trace s
                ++ [EvGo (Name file) (filepath_Join e directory (Name file))] |}
  else
    {| control := Ranging rest; readDirCalls := readDirCalls s;
       processedFiles := processedFiles s; goroutines := goroutines s;
       trace := trace s |}.
Proof.
  unfold visit, isCandidate.
  destruct (IsDir file); [reflexivity|].
  destruct (isProcessed (processedFiles s) (Name file));
    destruct (strings.HasSuffix _ _); reflexivity.
Qed.

(** C7. A turn of the scan claims the entry and starts its goroutine if
    and only if the entry is not a directory, its lowercased name ends in
    [.jpg] and its name does not read as [true] in [processedFiles];
    otherwise it leaves the processed set, the goroutines and the trace as
    they were.  Over the listing a.jpg, b.JPG, c.png and an empty processed
    set, the goroutines started are those of a.jpg and b.JPG. *)
Theorem scan_filters_candidates
    (e : Env) (directory referenceImagePath : string) (file : DirEntry)
    (rest : list DirEntry) (s : Sys) :
  let s' := visit e directory file rest s in
  let go := EvGo (Name file) (filepath_Join e directory (Name file)) in
  (trace s' = trace s ++ [go]
   <-> IsDir file = false
       /\ strings.HasSuffix
            (strings.ToLower (unicode_caseLower e) (Name file)) ".jpg" = true
       /\ isProcessed (processedFiles s) (Name file) = false)
  /\ (if isCandidate e (processedFiles s) file
      then processedFiles s' = <[Name file := true]> (processedFiles s)
           /\ goroutines s'
              = goroutines s ++ [(Name file, filepath_Join e directory (Name file))]
           /\ dispatched (trace s') = dispatched (trace s) ++ [Name file]
      else processedFiles s' = processedFiles s
           /\ goroutines s' = goroutines s
           /\ trace s' = trace s)
  /\ dispatched
       (trace (watcherSteps e directory referenceImagePath 3
                 {| control := Ranging sampleListing; readDirCalls := 1;
                    processedFiles := ∅; goroutines := []; trace := [] |}))
     = ["a.jpg"; "b.JPG"].
Proof.
  intros s' go. subst s' go. rewrite visit_isCandidate. unfold isCandidate.
  split; [|split].
  - destruct (IsDir file), (strings.HasSuffix _ _),
      (isProcessed (processedFiles s) (Name file));
      cbn [negb andb trace]; split; try tauto;
      try (intros (? & ? & ?); discriminate);
      intros Heq; apply (f_equal (@length Event)) in Heq;
      rewrite length_app in Heq; cbn in Heq; lia.
  - destruct (negb (IsDir file) && _ && _);
      cbn [trace processedFiles goroutines]; repeat split.
    now rewrite dispatched_app.
  - vm_compute. reflexivity.
Qed.

(* ===================================================================== *)
(** ** The image accessor                                                *)
(* ===================================================================== *)

Lemma append_cons (a : ascii) (s t : string) :
  String a s +:+ t = String a (s +:+ t).
Proof. reflexivity. Qed.

(** C10, as amended. [ValidateImage] gives the error "image not found"
    exactly when [os.Stat] fails with the error [os.IsNotExist] holds of,
    so only for a path that is not on the disk; the error "unable to read
    image" exactly when [os.Stat] gives no such error and [gocv.IMRead]
    gives an empty matrix, which for a path that is on the disk is exactly
    when its content does not decode; and otherwise the matrix read and no
    error.  The two errors differ. *)
Theorem ValidateImage_outcomes (e : Env) (imagePath : string) :
  let notFound := "image not found: " +:+ imagePath in
  let unreadable := "unable to read image: " +:+ imagePath in
  let img := gocv_IMRead e imagePath IMReadGrayScale in
  (ValidateImage e imagePath = Err notFound
   <-> os_Stat e imagePath = StatNotExist)
  /\ (ValidateImage e imagePath = Err unreadable
      <-> os_Stat e imagePath <> StatNotExist /\ Empty img = true)
  /\ (ValidateImage e imagePath = Ok img
      <-> os_Stat e imagePath <> StatNotExist /\ Empty img = false)
  /\ (forall img', ValidateImage e imagePath = Ok img' -> img' = img)
  /\ notFound <> unreadable
  /\ (ValidateImage e imagePath = Err notFound ->
      onDisk (os_Stat e imagePath) = Some false)
  /\ (onDisk (os_Stat e imagePath) = Some true ->
      (ValidateImage e imagePath = Err unreadable <-> Empty img = true)).
Proof.
  intros notFound unreadable img.
  assert (Hdiff : notFound <> unreadable).
  { subst notFound unreadable. rewrite !append_cons. discriminate. }
  unfold ValidateImage. fold img. fold notFound. fold unreadable.
  destruct (os_Stat e imagePath), (Empty img); cbn [onDisk];
    repeat match goal with
           | |- _ /\ _ => split
           | |- _ <-> _ => split
           | |- _ <> _ => first [exact Hdiff | discriminate]
           | |- _ -> _ => intro
           | |- forall _, _ => intro
           | H : _ /\ _ |- _ => destruct H
           end;
    congruence.
Qed.

(** C10, as the claim has it, fails on [plain.txt/x.jpg] where
    [plain.txt] is a regular file: nothing on the disk has this path,
    [os.Stat] fails with [ENOTDIR], which [os.IsNotExist] does not hold
    of, and [ValidateImage] goes on to [gocv.IMRead] and reports "unable
    to read image".  So "image not found" is not the error of every path
    that is missing, and "unable to read image" is not the error of
    existing paths only. *)
Lemma missing_path_reported_unreadable :
  onDisk (os_Stat notDirEnv "plain.txt/x.jpg") = Some false
  /\ ValidateImage notDirEnv "plain.txt/x.jpg"
     = Err "unable to read image: plain.txt/x.jpg"
  /\ ValidateImage notDirEnv "plain.txt/x.jpg"
     <> Err "image not found: plain.txt/x.jpg"
  /\ ~ (forall (e : Env) (imagePath : string),
          onDisk (os_Stat e imagePath) = Some false
          <-> ValidateImage e imagePath = Err ("image not found: " +:+ imagePath))
  /\ ~ (forall (e : Env) (imagePath : string),
          ValidateImage e imagePath = Err ("unable to read image: " +:+ imagePath)
          <-> onDisk (os_Stat e imagePath) = Some true
              /\ Empty (gocv_IMRead e imagePath IMReadGrayScale) = true).
Proof.
  split; [reflexivity|]. split; [reflexivity|]. split; [discriminate|]. split.
  - intros Hclaim.
    pose proof (proj1 (Hclaim notDirEnv "plain.txt/x.jpg") eq_refl) as Hret.
    discriminate Hret.
  - intros Hclaim.
    pose proof (proj1 (Hclaim notDirEnv "plain.txt/x.jpg") eq_refl) as [Hdisk _].
    discriminate Hdisk.
Qed.

(* ===================================================================== *)
(** ** The watcher: start-up, listing errors, the loop                   *)
(* ===================================================================== *)

Section Loop.

Variable e : Env.
Variables directory referenceImagePath : string.

Local Abbreviation watcher := (watcherStep e directory referenceImagePath).
Local Abbreviation watch := (watcherSteps e directory referenceImagePath).
Local Abbreviation run := (fold_left (step e directory referenceImagePath)).

Lemma run_Returned (schedule : list Action) (s : Sys) :
  control s = Returned -> run schedule s = s.
Proof.
  intros Hs. induction schedule as [|a schedule IH]; [reflexivity|].
  cbn [fold_left]. destruct a as [|i]; cbn [step].
  - unfold watcherStep. rewrite Hs. exact IH.
  - unfold goroutineStep. rewrite Hs. exact IH.
Qed.

Lemma run_without_reference (err : error) (schedule : list Action) :
  ValidateImage e referenceImagePath = Err err ->
  AnalyzeDirectory e directory referenceImagePath schedule
  = if existsb isWatcher schedule then gaveUp err else initial.
Proof.
  intros Href. unfold AnalyzeDirectory.
  induction schedule as [|a schedule IH]; [reflexivity|].
  cbn [fold_left existsb]. destruct a as [|i]; cbn [step isWatcher orb].
  - unfold watcherStep. cbn [control initial]. rewrite Href.
    now apply run_Returned.
  - exact IH.
Qed.

Lemma watcherStep_inLoop (s : Sys) : inLoop s -> inLoop (watcher s).
Proof.
  unfold watcherStep, visit.
  intros [Hs | [files Hs]]; rewrite Hs.
  - destruct (os_ReadDir e (readDirCalls s) directory) as [files|err];
      [right; exists files | left]; reflexivity.
  - destruct files as [|file rest]; [left; reflexivity|].
    right. exists rest. split_cases; reflexivity.
Qed.

Lemma goroutineStep_control (i : nat) (s : Sys) :
  control (goroutineStep e referenceImagePath i s) = control s.
Proof.
  unfold goroutineStep.
  destruct (control s) eqn:Hc, (goroutines s !! i) as [[filename path]|];
    cbn [control]; congruence.
Qed.

Lemma run_inLoop (schedule : list Action) (s : Sys) :
  inLoop s -> inLoop (run schedule s).
Proof.
  revert s. induction schedule as [|a schedule IH]; intros s Hs; [exact Hs|].
  cbn [fold_left]. apply IH. destruct a as [|i]; cbn [step].
  - now apply watcherStep_inLoop.
  - unfold inLoop. rewrite goroutineStep_control. exact Hs.
Qed.

Lemma run_with_reference (img : Mat) (schedule : list Action) :
  ValidateImage e referenceImagePath = Ok img ->
  if existsb isWatcher schedule
  then inLoop (AnalyzeDirectory e directory referenceImagePath schedule)
  else AnalyzeDirectory e directory referenceImagePath schedule = initial.
Proof.
  intros Href. unfold AnalyzeDirectory.
  induction schedule as [|a schedule IH]; [reflexivity|].
  cbn [fold_left existsb]. destruct a as [|i]; cbn [step isWatcher orb].
  - apply run_inLoop. unfold watcherStep. cbn [control initial]. rewrite Href.
    left. reflexivity.
  - exact IH.
Qed.

Lemma watcherSteps_add (n m : nat) (s : Sys) :
  watch (n + m)%nat s = watch n (watch m s).
Proof. unfold watcherSteps. apply Nat.iter_add. Qed.

(** The watcher alone is the schedule of [Watcher] actions only. *)
Lemma run_Watcher (k : nat) (s : Sys) : run (repeat Watcher k) s = watch k s.
Proof.
  revert s. induction k as [|k IH]; intros s; [reflexivity|].
  cbn [repeat fold_left step]. rewrite IH.
  replace (S k) with (k + 1)%nat by lia. now rewrite watcherSteps_add.
Qed.

(** The range over a listing comes back to the top of the loop. *)
Lemma range_ends (files : list DirEntry) :
  forall s, control s = Ranging files ->
    control (watch (S (length files)) s) = Scanning
    /\ readDirCalls (watch (S (length files)) s) = readDirCalls s.
Proof.
  induction files as [|file rest IH]; intros s Hs.
  - cbn. unfold watcherStep. rewrite Hs. split; reflexivity.
  - replace (S (length (file :: rest))) with (S (length rest) + 1)%nat
      by (cbn [length]; lia).
    rewrite watcherSteps_add.
    assert (H1 : control (watch 1 s) = Ranging rest
                 /\ readDirCalls (watch 1 s) = readDirCalls s).
    { cbn. unfold watcherStep. rewrite Hs. unfold visit.
      split_cases; split; reflexivity. }
    destruct H1 as [Hc Hr]. destruct (IH _ Hc) as [Hc' Hr'].
    split; [exact Hc' | congruence].
Qed.

(** From the top of the loop the watcher reaches the top again, with one
    more call of [os.ReadDir]. *)
Lemma loop_turns (s : Sys) :
  control s = Scanning ->
  exists k,
    control (watch k s) = Scanning
    /\ readDirCalls (watch k s) = S (readDirCalls s).
Proof.
  intros Hs.
  destruct (os_ReadDir e (readDirCalls s) directory) as [files|err] eqn:Hread.
  - exists (S (length files) + 1)%nat. rewrite watcherSteps_add.
    assert (H1 : control (watch 1 s) = Ranging files
                 /\ readDirCalls (watch 1 s) = S (readDirCalls s)).
    { cbn. unfold watcherStep. rewrite Hs, Hread. split; reflexivity. }
    destruct H1 as [Hc Hr]. destruct (range_ends files _ Hc) as [Hc' Hr'].
    split; [exact Hc' | congruence].
  - exists 1%nat. cbn. unfold watcherStep. rewrite Hs, Hread. split; reflexivity.
Qed.

(** Once at the top of the loop, the watcher calls [os.ReadDir] as many
    more times as one likes. *)
Lemma loop_goes_on (s : Sys) :
  control s = Scanning ->
  forall n, exists k,
    control (watch k s) = Scanning
    /\ readDirCalls (watch k s) = (readDirCalls s + n)%nat.
Proof.
  intros Hs. induction n as [|n (k & Hc & Hr)].
  - exists 0%nat. cbn. split; [exact Hs | lia].
  - destruct (loop_turns _ Hc) as (k' & Hc' & Hr').
    exists (k' + k)%nat. rewrite watcherSteps_add. split; [exact Hc' | lia].
Qed.

(** With a readable reference image, whatever was scheduled so far, the
    watcher left to itself reaches the top of the loop. *)
Lemma reaches_loop (img : Mat) (schedule : list Action) :
  ValidateImage e referenceImagePath = Ok img ->
  exists k,
    control (watch k (AnalyzeDirectory e directory referenceImagePath schedule))
    = Scanning
    /\ readDirCalls (watch k (AnalyzeDirectory e directory referenceImagePath schedule))
       = readDirCalls (AnalyzeDirectory e directory referenceImagePath schedule).
Proof.
  intros Href. pose proof (run_with_reference img schedule Href) as Hrun.
  destruct (existsb isWatcher schedule).
  - destruct Hrun as [Hc | [files Hc]].
    + exists 0%nat. split; [exact Hc | reflexivity].
    + exists (S (length files)). now apply range_ends.
  - rewrite Hrun. exists 1%nat. cbn. unfold watcherStep. cbn [control initial].
    rewrite Href. split; reflexivity.
Qed.

Lemma loop_forever (img : Mat) (schedule : list Action) :
  ValidateImage e referenceImagePath = Ok img ->
  forall n, exists k,
    readDirCalls
      (AnalyzeDirectory e directory referenceImagePath (schedule ++ repeat Watcher k))
    = (readDirCalls (AnalyzeDirectory e directory referenceImagePath schedule) + n)%nat.
Proof.
  intros Href n.
  destruct (reaches_loop img schedule Href) as (k0 & Hc0 & Hr0).
  destruct (loop_goes_on _ Hc0 n) as (k & _ & Hr).
  exists (k + k0)%nat. unfold AnalyzeDirectory in *.
  rewrite fold_left_app, run_Watcher, watcherSteps_add. congruence.
Qed.

End Loop.

(** C8. [ValidateImage] fails on the reference image exactly when the
    path does not exist or the file reads as an empty matrix.  When it
    fails, the first step of the watcher logs the failure and returns:
    under every schedule the state is the initial one or the one after
    that [return], [os.ReadDir] was never called and the loop was never
    entered.  When it succeeds, the first step of the watcher enters the
    loop, no schedule ever leaves it, and after every schedule the watcher
    goes on to call [os.ReadDir] any number of times more. *)
Theorem reference_image_gates_the_loop
    (e : Env) (directory referenceImagePath : string) (schedule : list Action) :
  let s := AnalyzeDirectory e directory referenceImagePath schedule in
  ((os_Stat e referenceImagePath = StatNotExist
    \/ Empty (gocv_IMRead e referenceImagePath IMReadGrayScale) = true)
   <-> exists err, ValidateImage e referenceImagePath = Err err)
  /\ match ValidateImage e referenceImagePath with
  | Err err =>
      s = (if existsb isWatcher schedule then gaveUp err else initial)
      /\ readDirCalls s = 0%nat
      /\ forallb (fun ev => negb (isReadDir ev)) (trace s) = true
      /\ ~ inLoop s
  | Ok _ =>
      (if existsb isWatcher schedule then inLoop s else s = initial)
      /\ control s <> Returned
      /\ forall n, exists k,
           readDirCalls
             (AnalyzeDirectory e directory referenceImagePath
                (schedule ++ repeat Watcher k))
           = (readDirCalls s + n)%nat
  end.
Proof.
  intros s. split.
  { unfold ValidateImage.
    destruct (os_Stat e referenceImagePath),
      (Empty (gocv_IMRead e referenceImagePath IMReadGrayScale));
      split; eauto; intros H; try (destruct H as [H | H]; discriminate H);
      destruct H as [err H]; discriminate H. }
  destruct (ValidateImage e referenceImagePath) as [img|err] eqn:Href.
  - pose proof (run_with_reference e directory referenceImagePath img schedule Href)
      as Hrun.
    fold s in Hrun. split; [exact Hrun|]. split.
    + destruct (existsb isWatcher schedule).
      * destruct Hrun as [Hc | [files Hc]]; rewrite Hc; discriminate.
      * rewrite Hrun. discriminate.
    + now apply loop_forever with (img := img).
  - pose proof (run_without_reference e directory referenceImagePath err schedule Href)
      as Hrun.
    fold s in Hrun. split; [exact Hrun|]. rewrite Hrun.
    destruct (existsb isWatcher schedule); repeat split; try reflexivity;
      intros [Hc | [files Hc]]; discriminate Hc.
Qed.

(** C9. At the top of the loop, when [os.ReadDir] fails, the watcher logs
    the error, starts no goroutine, leaves the processed set alone and is
    at the top of the loop again, without having returned; its next step
    calls [os.ReadDir] again and ranges over the listing if there is one,
    and from there it calls [os.ReadDir] any number of times more. *)
Theorem listing_error_skips_the_scan
    (e : Env) (directory referenceImagePath : string) (s : Sys) (err : error) :
  control s = Scanning ->
  os_ReadDir e (readDirCalls s) directory = Err err ->
  let s' := watcherStep e directory referenceImagePath s in
  let s'' := watcherStep e directory referenceImagePath s' in
  trace s' = trace s ++ [EvReadDir directory;
                         EvLog ("Error reading directory: " +:+ err)]
  /\ goroutines s' = goroutines s
  /\ processedFiles s' = processedFiles s
  /\ control s' = Scanning
  /\ readDirCalls s' = S (readDirCalls s)
  /\ readDirCalls s'' = S (S (readDirCalls s))
  /\ match os_ReadDir e (S (readDirCalls s)) directory with
     | Ok files => control s'' = Ranging files
                   /\ trace s'' = trace s' ++ [EvReadDir directory]
     | Err err' => control s'' = Scanning
                   /\ trace s'' = trace s' ++ [EvReadDir directory;
                                               EvLog ("Error reading directory: " +:+ err')]
     end
  /\ forall n, exists k,
       control (watcherSteps e directory referenceImagePath k s') = Scanning
       /\ readDirCalls (watcherSteps e directory referenceImagePath k s')
          = (readDirCalls s' + n)%nat.
Proof.
  intros Hs Hread s' s''.
  assert (Hs' : s' = {| control := Scanning; readDirCalls := S (readDirCalls s);
                        processedFiles := processedFiles s;
                        goroutines := goroutines s;
                        trace := trace s ++ [EvReadDir directory;
                                             EvLog ("Error reading directory: " +:+ err)] |}).
  { subst s'. unfold watcherStep. now rewrite Hs, Hread. }
  assert (Hon : forall n, exists k,
             control (watcherSteps e directory referenceImagePath k s') = Scanning
             /\ readDirCalls (watcherSteps e directory referenceImagePath k s')
                = (readDirCalls s' + n)%nat).
  { apply loop_goes_on. now rewrite Hs'. }
  subst s''. revert Hon. rewrite Hs'. intros Hon. unfold watcherStep.
  cbn [trace goroutines processedFiles control readDirCalls].
  destruct (os_ReadDir e (S (readDirCalls s)) directory); repeat split;
    exact Hon.
Qed.

Lemma listing_error_skips_the_scan_witness :
  let s := watcherStep sampleEnv "./img" "img.jpg" initial in
  let s' := watcherStep sampleEnv "./img" "img.jpg" s in
  let s'' := watcherStep sampleEnv "./img" "img.jpg" s' in
  trace s' = trace s ++ [EvReadDir "./img";
                         EvLog "Error reading directory: open ./img: permission denied"]
  /\ goroutines s' = goroutines s
  /\ processedFiles s' = processedFiles s
  /\ control s' = Scanning
  /\ readDirCalls s' = 1%nat
  /\ readDirCalls s'' = 2%nat
  /\ control s'' = Ranging (sampleListing ++ [ {| Name := "d.jpg"; IsDir := true |} ])
  /\ trace s'' = trace s' ++ [EvReadDir "./img"].
Proof.
  pose proof (listing_error_skips_the_scan sampleEnv "./img" "img.jpg"
                (watcherStep sampleEnv "./img" "img.jpg" initial)
                "open ./img: permission denied" eq_refl eq_refl) as H.
  cbv zeta in H. decompose [and] H. repeat split; assumption.
Defined.

(* ===================================================================== *)
(** ** The similarity score                                              *)
(* ===================================================================== *)

(** *** The score of an image against itself, without rounding

    Read over the rationals, the text of [SSIM] gives the value the
    [float64] result rounds.  For two equal images [sumC] is twice [sumL],
    so [L] is 1 and [C] is [(4 * S + C2) / (S + C2)], [S] being the sum of
    the squares of the pixels: 1 for a black image, more than 1 for every
    other one. *)

Lemma fold_left_related {A B X : Type} (R : A -> B -> Prop)
    (f : A -> X -> A) (g : B -> X -> B) :
  (forall a b x, R a b -> R (f a x) (g b x)) ->
  forall xs a b, R a b -> R (fold_left f xs a) (fold_left g xs b).
Proof.
  intros Hstep. induction xs as [|x xs IH]; intros a b Hab; [exact Hab|].
  cbn [fold_left]. apply IH, Hstep, Hab.
Qed.

Lemma pixel_same_image (gray : Mat) (y x : nat) (sums : Q * Q * Q) (z : Z) :
  sumsOfSquares sums z ->
  sumsOfSquares (pixel (F := Q) gray gray y x sums)
                (z + GetUCharAt gray y x * GetUCharAt gray y x).
Proof.
  unfold sumsOfSquares, pixel. intros ->. cbn [ofUChar fadd fmul rational].
  set (v := GetUCharAt gray y x).
  rewrite <- !inject_Z_mult, <- !inject_Z_plus.
  repeat f_equal. lia.
Qed.

Lemma sumPixels_same_image (gray : Mat) (width height : nat) :
  sumsOfSquares (sumPixels (F := Q) gray gray width height)
                (sumSquares gray width height).
Proof.
  unfold sumPixels, sumSquares.
  apply fold_left_related with (R := sumsOfSquares); [|reflexivity].
  intros sums z y Hy.
  apply fold_left_related with (R := sumsOfSquares); [|exact Hy].
  intros sums' z' x Hx. now apply pixel_same_image.
Qed.

Lemma sumSquares_nonneg (gray : Mat) (width height : nat) :
  0 <= sumSquares gray width height.
Proof.
  unfold sumSquares.
  apply fold_left_related with (R := fun (_ : unit) z => 0 <= z)
                               (f := fun u _ => u) (a := tt); [|lia].
  intros _ z y Hz.
  apply fold_left_related with (R := fun (_ : unit) z => 0 <= z)
                               (f := fun u _ => u) (a := tt); [|exact Hz].
  intros _ z' x Hz'. nia.
Qed.

(** X13. Read over the rationals, an image against itself scores
    [(4 * S + C2) / (S + C2)], [S] being the sum of the squares of its gray
    pixels inside its frame: at least 1, and more than 1 when that sum is
    not 0. *)
Lemma identical_images_exact_score (e : Env) (img : Mat) :
  let S := inject_Z (sumSquares (gocv_CvtColor_BGRToGray e img) (Cols img) (Rows img)) in
  let C2 := (585225 # 10000)%Q in
  (SSIM (F := Q) e img img == (4 * S + C2) / (S + C2))%Q
  /\ (1 <= SSIM (F := Q) e img img)%Q
  /\ ((0 < S)%Q -> (1 < SSIM (F := Q) e img img)%Q).
Proof.
  intros S C2.
  assert (HS : (0 <= S)%Q).
  { subst S. change 0%Q with (inject_Z 0). rewrite <- Zle_Qle.
    apply sumSquares_nonneg. }
  assert (Hv : (SSIM (F := Q) e img img == (4 * S + C2) / (S + C2))%Q).
  { unfold SSIM. rewrite (sumPixels_same_image _ _ _).
    cbn [fadd fmul fdiv lit_2 lit_6_5025 lit_58_5225 rational].
    rewrite inject_Z_mult. fold S. change (inject_Z 2) with 2%Q. subst C2.
    field. split; lra. }
  split; [exact Hv|]. rewrite Hv. subst C2. split.
  - apply Qle_shift_div_l; lra.
  - intros Hpos. apply Qlt_shift_div_l; lra.
Qed.

(** C3. One white pixel compared with itself: when the gray conversion
    leaves the image as it is, [SSIM] on [float64] returns
    3.9973024278149665, not a value near 1.0.  The luminance factor [L] is
    1, the factor [C] is [(4 * 65025 + C2) / (65025 + C2)], as
    [identical_images_exact_score] has it for every image. *)
Theorem white_pixel_against_itself_scores_four (e : Env) :
  gocv_CvtColor_BGRToGray e (white 1) = white 1 ->
  SSIM (F := float) e (white 1) (white 1) = 3.9973024278149665%float
  /\ PrimFloat.ltb 3.99 (SSIM (F := float) e (white 1) (white 1)) = true.
Proof.
  intros Hgray.
  assert (Hv : SSIM (F := float) e (white 1) (white 1) = 3.9973024278149665%float).
  { unfold SSIM. rewrite Hgray. vm_compute. reflexivity. }
  rewrite Hv. split; reflexivity.
Qed.

Lemma white_pixel_against_itself_scores_four_witness :
  SSIM (F := float) sampleEnv (white 1) (white 1) = 3.9973024278149665%float
  /\ PrimFloat.ltb 3.99 (SSIM (F := float) sampleEnv (white 1) (white 1)) = true.
Proof.
  apply (white_pixel_against_itself_scores_four sampleEnv). reflexivity.
Defined.

(** C4. [SSIM] uses the constants 6.5025 and 58.5225, the squares of
    0.01 * 255 and of 0.03 * 255, and its value is not confined to the
    interval from 0 to 1: a readable image file compared with itself by
    [CompareImages], on a canvas of 300 by 300 white pixels, scores
    3.9999999700000002.  Nor does the value tell equal images from others:
    a white pixel against a gray one scores 3.9943549484224921. *)
Theorem score_leaves_unit_interval :
  lit_6_5025 (F := float) = 6.5025%float
  /\ lit_58_5225 (F := float) = 58.5225%float
  /\ (((1 # 100) * 255) ^ 2 == lit_6_5025 (F := Q))%Q
  /\ (((3 # 100) * 255) ^ 2 == lit_58_5225 (F := Q))%Q
  /\ CompareImages sampleEnv "img.jpg" "img.jpg" = Ok 3.9999999700000002%float
  /\ PrimFloat.leb 3.9999999700000002 1 = false
  /\ SSIM (F := float) sampleEnv (white 1) (shade 128 1) = 3.9943549484224921%float.
Proof.
  split; [reflexivity|]. split; [reflexivity|].
  split; [reflexivity|]. split; [reflexivity|].
  split; [vm_compute; reflexivity|].
  split; [reflexivity | vm_compute; reflexivity].
Qed.

(* ===================================================================== *)
(** ** More about [SSIM]                                                 *)
(* ===================================================================== *)

Lemma fold_left_ext_in {A X : Type} (f g : A -> X -> A) (xs : list X) :
  (forall a x, In x xs -> f a x = g a x) ->
  forall a, fold_left f xs a = fold_left g xs a.
Proof.
  induction xs as [|x xs IH]; intros Hfg a; [reflexivity|].
  cbn [fold_left]. rewrite (Hfg a x) by (left; reflexivity).
  apply IH. intros a' x' Hin. apply Hfg. right. exact Hin.
Qed.

Section SumPixels.

Context {F : Type} `{Arith F}.

(** The sums read the two gray images inside the frame and nowhere else. *)
Lemma sumPixels_frame (g1 g2 g1' g2' : Mat) (width height : nat) :
  (forall y x, (y < height)%nat -> (x < width)%nat ->
               GetUCharAt g1 y x = GetUCharAt g1' y x
               /\ GetUCharAt g2 y x = GetUCharAt g2' y x) ->
  sumPixels (F := F) g1 g2 width height = sumPixels (F := F) g1' g2' width height.
Proof.
  intros Hsame. unfold sumPixels.
  apply fold_left_ext_in. intros sums y Hy%in_seq.
  apply fold_left_ext_in. intros sums' x Hx%in_seq.
  unfold pixel. destruct (Hsame y x) as [-> ->]; [lia | lia | reflexivity].
Qed.

Hypothesis fmul_comm : forall a b : F, fmul a b = fmul b a.
Hypothesis fadd_comm : forall a b : F, fadd a b = fadd b a.

Lemma sumPixels_comm (g1 g2 : Mat) (width height : nat) :
  sumPixels (F := F) g1 g2 width height = sumPixels (F := F) g2 g1 width height.
Proof.
  unfold sumPixels.
  apply fold_left_ext_in. intros sums y _.
  apply fold_left_ext_in. intros [[sumL sumC] sumS] x _.
  unfold pixel.
  rewrite (fmul_comm (ofUChar (GetUCharAt g1 y x))).
  rewrite (fadd_comm (fmul (ofUChar (GetUCharAt g1 y x)) _)).
  reflexivity.
Qed.

End SumPixels.

(** Multiplication and addition of binary64 commute: the operations of
    [SpecFloat] that the primitive ones are specified by do. *)
Lemma SFmul_comm (x y : SpecFloat.spec_float) :
  SpecFloat.SFmul FloatOps.prec FloatOps.emax x y
  = SpecFloat.SFmul FloatOps.prec FloatOps.emax y x.
Proof.
  destruct x as [sx|sx| |sx mx ex], y as [sy|sy| |sy my ey];
    cbn [SpecFloat.SFmul]; rewrite ?(xorb_comm sx sy); try reflexivity.
  now rewrite Pos.mul_comm, Z.add_comm.
Qed.

Lemma SFadd_comm (x y : SpecFloat.spec_float) :
  SpecFloat.SFadd FloatOps.prec FloatOps.emax x y
  = SpecFloat.SFadd FloatOps.prec FloatOps.emax y x.
Proof.
  destruct x as [sx|sx| |sx mx ex], y as [sy|sy| |sy my ey];
    cbn [SpecFloat.SFadd]; try reflexivity; try (destruct sx, sy; reflexivity).
  rewrite (Z.min_comm ey ex). now rewrite Z.add_comm.
Qed.

Lemma float64_mul_comm (x y : float) : PrimFloat.mul x y = PrimFloat.mul y x.
Proof.
  apply FloatAxioms.Prim2SF_inj. rewrite !FloatAxioms.mul_spec. apply SFmul_comm.
Qed.

Lemma float64_add_comm (x y : float) : PrimFloat.add x y = PrimFloat.add y x.
Proof.
  apply FloatAxioms.Prim2SF_inj. rewrite !FloatAxioms.add_spec. apply SFadd_comm.
Qed.

(** X1. [SSIM] takes the frame from its first argument and checks no
    size: in either arithmetic, the pixels of the second image outside
    the rows and columns of the first do not enter the score. *)
Theorem SSIM_reads_the_first_frame
    {F : Type} `{Arith F} (e : Env) (img1 img2 img2' : Mat) :
  (forall y x, (y < Rows img1)%nat -> (x < Cols img1)%nat ->
               GetUCharAt (gocv_CvtColor_BGRToGray e img2) y x
               = GetUCharAt (gocv_CvtColor_BGRToGray e img2') y x) ->
  SSIM e img1 img2 = SSIM e img1 img2'.
Proof.
  intros Hsame. unfold SSIM.
  rewrite (sumPixels_frame _ (gocv_CvtColor_BGRToGray e img2)
             (gocv_CvtColor_BGRToGray e img1) (gocv_CvtColor_BGRToGray e img2'));
    [reflexivity|].
  intros y x Hy Hx. split; [reflexivity | now apply Hsame].
Qed.

Lemma SSIM_reads_the_first_frame_witness :
  SSIM (F := float) sampleEnv (white 1) (white 1)
  = SSIM (F := float) sampleEnv (white 1)
      {| Rows := 2; Cols := 2; data := [[255; 7]; [8; 9]] |}.
Proof.
  apply (SSIM_reads_the_first_frame sampleEnv (white 1) (white 1)
           {| Rows := 2; Cols := 2; data := [[255; 7]; [8; 9]] |}).
  intros y x Hy Hx. cbn in Hy, Hx.
  assert (y = 0%nat) as -> by lia. assert (x = 0%nat) as -> by lia. reflexivity.
Defined.

(** X2. On [float64], for two images of the same size, the score does not
    depend on which of the two comes first. *)
Theorem SSIM_is_symmetric (e : Env) (img1 img2 : Mat) :
  Rows img1 = Rows img2 ->
  Cols img1 = Cols img2 ->
  SSIM (F := float) e img1 img2 = SSIM (F := float) e img2 img1.
Proof.
  intros Hrows Hcols. unfold SSIM. rewrite <- Hrows, <- Hcols.
  rewrite (@sumPixels_comm float float64 float64_mul_comm float64_add_comm
             (gocv_CvtColor_BGRToGray e img1)).
  reflexivity.
Qed.

Lemma SSIM_is_symmetric_witness :
  SSIM (F := float) sampleEnv (white 1) (shade 128 1)
  = SSIM (F := float) sampleEnv (shade 128 1) (white 1).
Proof.
  apply (SSIM_is_symmetric sampleEnv (white 1) (shade 128 1)); reflexivity.
Defined.

Lemma fold_left_invariant {A X : Type} (P : A -> Prop) (f : A -> X -> A) :
  (forall a x, P a -> P (f a x)) ->
  forall xs a, P a -> P (fold_left f xs a).
Proof.
  intros Hstep. induction xs as [|x xs IH]; intros a Ha; [exact Ha|].
  cbn [fold_left]. apply IH, Hstep, Ha.
Qed.

Lemma GetUCharAt_noData (rows cols y x : nat) :
  GetUCharAt {| Rows := rows; Cols := cols; data := [] |} y x = 0.
Proof. unfold GetUCharAt. cbn [data]. destruct y, x; reflexivity. Qed.

Lemma sumPixels_black (width height : nat) :
  let black := {| Rows := height; Cols := width; data := [] |} in
  sumPixels (F := float) black black width height = (0, 0, 0)%float.
Proof.
  intros black. unfold sumPixels.
  apply fold_left_invariant with (P := fun sums => sums = (0, 0, 0)%float);
    [|reflexivity].
  intros sums y ->.
  apply fold_left_invariant with (P := fun sums => sums = (0, 0, 0)%float);
    [|reflexivity].
  intros sums x ->. unfold pixel, black. rewrite GetUCharAt_noData. reflexivity.
Qed.

(** X3. On [float64], two images that are black all over the frame of
    the first (an empty frame included) score exactly 1. *)
Theorem SSIM_of_black_images (e : Env) (img1 img2 : Mat) :
  (forall y x, (y < Rows img1)%nat -> (x < Cols img1)%nat ->
               GetUCharAt (gocv_CvtColor_BGRToGray e img1) y x = 0
               /\ GetUCharAt (gocv_CvtColor_BGRToGray e img2) y x = 0) ->
  SSIM (F := float) e img1 img2 = 1%float.
Proof.
  intros Hblack. unfold SSIM.
  rewrite (sumPixels_frame _ _ {| Rows := Rows img1; Cols := Cols img1; data := [] |}
             {| Rows := Rows img1; Cols := Cols img1; data := [] |}).
  - rewrite sumPixels_black. reflexivity.
  - intros y x Hy Hx. rewrite !GetUCharAt_noData. now apply Hblack.
Qed.

Lemma SSIM_of_black_images_witness :
  SSIM (F := float) sampleEnv (shade 0 2) (shade 0 2) = 1%float.
Proof.
  apply (SSIM_of_black_images sampleEnv (shade 0 2) (shade 0 2)).
  intros y x Hy Hx. cbn in Hy, Hx.
  destruct y as [|[|y]]; [| |lia]; (destruct x as [|[|x]]; [| |lia]);
    split; reflexivity.
Defined.

Lemma GetUCharAt_range (m : Mat) (y x : nat) : 0 <= GetUCharAt m y x < 256.
Proof. unfold GetUCharAt. apply Z.mod_pos_bound. lia. Qed.

Lemma sumPixels_whole (g1 g2 : Mat) (width height : nat) :
  wholeSums (sumPixels (F := Q) g1 g2 width height).
Proof.
  unfold sumPixels.
  apply fold_left_invariant with (P := wholeSums);
    [|exists 0, 0; repeat split; lia].
  intros sums y Hy.
  apply fold_left_invariant with (P := wholeSums); [|exact Hy].
  intros sums' x (l & c & -> & Hl & Hc).
  pose proof (GetUCharAt_range g1 y x) as Ha.
  pose proof (GetUCharAt_range g2 y x) as Hb.
  set (a := GetUCharAt g1 y x) in *. set (b := GetUCharAt g2 y x) in *.
  exists (l + a * b), (c + (a * a + b * b)).
  unfold pixel. fold a b. cbn [ofUChar fadd fmul rational].
  rewrite <- !inject_Z_mult, <- !inject_Z_plus.
  pose proof (Z.square_nonneg (a - b)) as Hsq.
  split; [reflexivity|]. split; nia.
Qed.

(** X4. Read over the rationals, the score of any two images lies
    strictly between [2 * C1 / C2] (about 0.2222) and 4. *)
Theorem exact_score_range (e : Env) (img1 img2 : Mat) :
  (2 * lit_6_5025 (F := Q) / lit_58_5225 (F := Q) < SSIM (F := Q) e img1 img2)%Q
  /\ (SSIM (F := Q) e img1 img2 < 4)%Q.
Proof.
  unfold SSIM.
  destruct (sumPixels_whole (gocv_CvtColor_BGRToGray e img1)
              (gocv_CvtColor_BGRToGray e img2) (Cols img1) (Rows img1))
    as (l & c & -> & Hl & Hc).
  cbn [fadd fmul fdiv lit_2 lit_6_5025 lit_58_5225 rational].
  assert (HL : (0 <= inject_Z l)%Q).
  { change 0%Q with (inject_Z 0). now rewrite <- Zle_Qle. }
  assert (HC : (2 * inject_Z l <= inject_Z c)%Q).
  { change 2%Q with (inject_Z 2). rewrite <- inject_Z_mult. now rewrite <- Zle_Qle. }
  set (L := inject_Z l) in *. set (C := inject_Z c) in *.
  assert (Hscore :
    ((2 * L + (65025 # 10000)) / (C + (65025 # 10000))
     * ((2 * C + (585225 # 10000)) / (L + (585225 # 10000)))
     == (2 * L + (65025 # 10000)) * (2 * C + (585225 # 10000))
        / ((C + (65025 # 10000)) * (L + (585225 # 10000))))%Q).
  { field. split; lra. }
  rewrite Hscore.
  assert (Hden : (0 < (C + (65025 # 10000)) * (L + (585225 # 10000)))%Q).
  { apply Qmult_lt_0_compat; lra. }
  assert (HLC : (0 <= L * C)%Q) by (apply Qmult_le_0_compat; lra).
  split.
  - apply Qlt_shift_div_l; [exact Hden|].
    assert (Hk : (2 * (65025 # 10000) / (585225 # 10000) == 2 # 9)%Q) by reflexivity.
    rewrite Hk. nra.
  - apply Qlt_shift_div_r; [exact Hden|]. nra.
Qed.

(* ===================================================================== *)
(** ** More about the words of a text                                    *)
(* ===================================================================== *)

Lemma append_assoc (a b c : string) : (a +:+ b) +:+ c = a +:+ b +:+ c.
Proof.
  induction a as [|x a IH]; [reflexivity|].
  change (String x ((a +:+ b) +:+ c) = String x (a +:+ b +:+ c)). now rewrite IH.
Qed.

Lemma bytes_append (a b : string) : bytes (a +:+ b) = bytes a ++ bytes b.
Proof.
  unfold bytes. induction a as [|x a IH]; [reflexivity|].
  change (x :: list_ascii_of_string (a +:+ b)
          = x :: (list_ascii_of_string a ++ list_ascii_of_string b)).
  now rewrite IH.
Qed.

Lemma snoc_not_empty (s : string) (c : ascii) : strings.snoc s c <> EmptyString.
Proof. destruct s; discriminate. Qed.

Lemma noSpace_snoc (s : string) (c : ascii) :
  noSpace s -> strings.asciiSpace c = false -> noSpace (strings.snoc s c).
Proof.
  intros Hs Hc x. rewrite bytes_snoc, in_app_iff. intros [Hx | [<- | []]]; auto.
Qed.

Lemma fieldSoFar_push (cur : option string) (c : ascii) :
  fieldSoFar cur -> strings.asciiSpace c = false ->
  fieldSoFar (strings.push cur c).
Proof.
  intros Hcur Hc w [= <-]. split; [apply snoc_not_empty|].
  apply noSpace_snoc; [|exact Hc].
  destruct cur as [had|]; [now apply Hcur | intros x []].
Qed.

Lemma within_later (w rest : string) (c : ascii) :
  within w rest -> within w (String c rest).
Proof. intros (pre & post & ->). now exists (String c pre), post. Qed.

(** The field in hand is a word when the scan stops or meets a separator. *)
Lemma cutFrom_flush (cur : option string) (s : string) :
  fieldSoFar cur -> Forall (cutFrom cur s) (strings.flush cur).
Proof.
  intros Hcur. destruct cur as [had|]; [|constructor].
  constructor; [|constructor]. destruct (Hcur had eq_refl) as [Hne Hno].
  split; [exact Hne|]. split; [exact Hno|]. left.
  exists had, EmptyString, s. now rewrite append_empty_r.
Qed.

(** The words found after a separator, or after a byte that was dropped. *)
Lemma cutFrom_after_separator (cur : option string) (c : ascii) (rest : string)
    (ws : list string) :
  Forall (cutFrom None rest) ws -> Forall (cutFrom cur (String c rest)) ws.
Proof.
  apply List.Forall_impl. intros w (Hne & Hno & [(had & more & post & [=] & _) | Hin]).
  split; [exact Hne|]. split; [exact Hno|]. right. now apply within_later.
Qed.

(** The words found after a byte was added to the field in hand. *)
Lemma cutFrom_after_push (cur : option string) (c : ascii) (rest : string)
    (ws : list string) :
  Forall (cutFrom (strings.push cur c) rest) ws ->
  Forall (cutFrom cur (String c rest)) ws.
Proof.
  apply List.Forall_impl. intros w (Hne & Hno & [(had & more & post & [= <-] & -> & ->) | Hin]).
  - split; [exact Hne|]. split; [exact Hno|].
    destruct cur as [had|]; cbn [default].
    + left. exists had, (String c more), post.
      split; [reflexivity|]. split; [apply snoc_append | reflexivity].
    + right. exists EmptyString, post. reflexivity.
  - split; [exact Hne|]. split; [exact Hno|]. right. now apply within_later.
Qed.

Lemma fieldsASCII_cut (s : string) :
  forall cur, fieldSoFar cur -> Forall (cutFrom cur s) (strings.fieldsASCII cur s).
Proof.
  induction s as [|c rest IH]; intros cur Hcur; cbn [strings.fieldsASCII].
  - now apply cutFrom_flush.
  - destruct (strings.asciiSpace c) eqn:Hsp.
    + apply Forall_app. split; [now apply cutFrom_flush|].
      apply cutFrom_after_separator, IH. intros w [=].
    + apply cutFrom_after_push, IH. now apply fieldSoFar_push.
Qed.

Lemma asciiSpace_high (c : ascii) :
  0x80 <= utf8.byteOf c -> strings.asciiSpace c = false.
Proof.
  unfold strings.asciiSpace. intros Hc.
  destruct (utf8.byteOf c) as [|p|p]; try reflexivity.
  do 8 (destruct p as [p|p|]; try reflexivity; try lia).
Qed.

Lemma fieldsFuncFrom_cut (f : utf8.rune -> bool) :
  (forall c, strings.asciiSpace c = true -> f (utf8.byteOf c) = true) ->
  forall s skip cur,
    highBytes skip s -> fieldSoFar cur ->
    Forall (cutFrom cur s) (strings.fieldsFuncFrom f skip cur s).
Proof.
  intros Hf. induction s as [|c rest IH]; intros skip cur Hskip Hcur.
  - now apply cutFrom_flush.
  - destruct skip as [|k]; cbn [strings.fieldsFuncFrom].
    + destruct (utf8.DecodeRuneInString (String c rest)) as [r size] eqn:Hdec.
      apply DecodeRuneInString_shape in Hdec as [Hhigh Hlow].
      destruct (f r) eqn:Hfr.
      * apply Forall_app. split; [now apply cutFrom_flush|].
        apply cutFrom_after_separator, IH; [exact Hhigh | intros w [=]].
      * apply cutFrom_after_push, IH; [exact Hhigh|].
        apply fieldSoFar_push; [exact Hcur|].
        destruct (Z.lt_ge_cases (utf8.byteOf c) 0x80) as [Hlt | Hge];
          [|now apply asciiSpace_high].
        destruct (strings.asciiSpace c) eqn:Hsp; [|reflexivity].
        apply Hf in Hsp. rewrite <- (Hlow Hlt) in Hsp. congruence.
    + destruct Hskip as [Hc Hskip].
      destruct cur as [had|].
      * apply cutFrom_after_push, IH; [exact Hskip|].
        apply fieldSoFar_push; [exact Hcur | now apply asciiSpace_high].
      * apply cutFrom_after_separator, IH; [exact Hskip | intros w [=]].
Qed.

Lemma IsSpace_asciiSpace (c : ascii) :
  strings.asciiSpace c = true -> unicode.IsSpace (utf8.byteOf c) = true.
Proof.
  unfold strings.asciiSpace, unicode.IsSpace.
  pose proof (byteOf_range c) as Hc.
  destruct (utf8.byteOf c) as [|p|p]; try discriminate.
  do 8 (destruct p as [p|p|]; try discriminate; try reflexivity).
Qed.

(** The words of [strings.Fields]: none is empty, none holds white space,
    each is a piece of the text. *)
Lemma Fields_words (text : string) :
  Forall (fun w => w <> EmptyString /\ noSpace w /\ within w text)
         (strings.Fields text).
Proof.
  assert (Hcut : Forall (cutFrom None text) (strings.Fields text)).
  { unfold strings.Fields, strings.FieldsFunc.
    destruct (utf8.RuneSelf <=? strings.setBits text).
    - apply fieldsFuncFrom_cut; [apply IsSpace_asciiSpace | exact I | intros w [=]].
    - apply fieldsASCII_cut. intros w [=]. }
  revert Hcut. apply List.Forall_impl.
  intros w (Hne & Hno & [(had & more & post & [=] & _) | Hin]). auto.
Qed.

Lemma DecodeRuneInString_ascii (c : ascii) (rest : string) :
  utf8.byteOf c < 0x80 ->
  utf8.DecodeRuneInString (String c rest) = (utf8.byteOf c, 1%nat).
Proof.
  intros Hc. unfold utf8.DecodeRuneInString, utf8.first.
  destruct (Z.ltb_spec (utf8.byteOf c) 0x80) as [_|Hge]; [reflexivity | lia].
Qed.

Lemma asciiSpace_low (c : ascii) :
  strings.asciiSpace c = true -> utf8.byteOf c < 0x80.
Proof.
  intros Hsp. destruct (Z.lt_ge_cases (utf8.byteOf c) 0x80) as [Hlt | Hge];
    [exact Hlt|].
  apply asciiSpace_high in Hge. congruence.
Qed.

(** A text of white space only has no words. *)
Lemma Fields_blank (text : string) :
  strings.allBytes strings.asciiSpace text = true -> strings.Fields text = [].
Proof.
  intros Hblank. unfold strings.Fields, strings.FieldsFunc.
  destruct (utf8.RuneSelf <=? strings.setBits text);
    induction text as [|c rest IH]; try reflexivity;
    cbn [strings.allBytes] in Hblank; apply andb_prop in Hblank as [Hc Hrest].
  - cbn [strings.fieldsFuncFrom].
    rewrite DecodeRuneInString_ascii by now apply asciiSpace_low.
    rewrite (IsSpace_asciiSpace c Hc). cbn. now apply IH.
  - cbn [strings.fieldsASCII]. rewrite Hc. cbn. now apply IH.
Qed.

Lemma within_empty (s : string) : within EmptyString s.
Proof. now exists EmptyString, s. Qed.

(** X5. [ExtractTextWithEnglishAndNumbers] succeeds exactly when the
    image reads as a non-empty matrix and Tesseract gives a text.  What it
    returns is empty exactly when the text has three words or fewer (so
    for an empty or blank text); otherwise it is a piece of the text with
    no white space in it. *)
Theorem extracted_word_is_a_piece_of_the_text (e : Env) (imagePath : string) :
  ((exists extracted, ExtractTextWithEnglishAndNumbers e imagePath = Ok extracted)
   <-> Empty (gocv_IMRead e imagePath IMReadColor) = false
       /\ exists text, gosseract_Text e imagePath = Ok text)
  /\ match ExtractTextWithEnglishAndNumbers e imagePath, gosseract_Text e imagePath with
     | Ok extracted, Ok text =>
         (extracted = EmptyString <-> (length (strings.Fields text) <= 3)%nat)
         /\ noSpace extracted
         /\ within extracted text
         /\ (strings.allBytes strings.asciiSpace text = true ->
             extracted = EmptyString)
     | _, _ => True
     end.
Proof.
  unfold ExtractTextWithEnglishAndNumbers.
  destruct (Empty (gocv_IMRead e imagePath IMReadColor)).
  { split; [|exact I]. split; [intros [x [=]] | intros [[=] _]]. }
  destruct (gosseract_Text e imagePath) as [text|err].
  2: { split; [|exact I]. split; [intros [x [=]] | intros [_ [x [=]]]]. }
  split.
  { split; [intros _; split; [reflexivity | now exists text]|].
    intros _. destruct (_ <? _)%nat; eauto. }
  pose proof (Fields_words text) as Hwords.
  destruct (Nat.ltb_spec 3 (length (strings.Fields text))) as [Hlt | Hge].
  - rewrite nth_last.
    destruct (exists_last (l := strings.Fields text)) as (front & w & Hw).
    { intros Hnil. rewrite Hnil in Hlt. cbn in Hlt. lia. }
    rewrite Hw, last_last. rewrite Hw in Hwords, Hlt.
    apply List.Forall_app in Hwords as [_ Hlast].
    apply List.Forall_inv in Hlast as (Hne & Hno & Hin).
    split; [split; [congruence | lia]|].
    split; [exact Hno|]. split; [exact Hin|].
    intros Hblank. apply Fields_blank in Hblank.
    rewrite Hblank in Hw. now destruct front.
  - split; [split; [intros _; exact Hge | reflexivity]|].
    split; [intros c []|]. split; [apply within_empty | reflexivity].
Qed.

(* ===================================================================== *)
(** ** More about the parsing rule                                       *)
(* ===================================================================== *)

Lemma noLF_cons (c : ascii) (s : string) :
  c <> LFbyte -> noLF s -> noLF (String c s).
Proof. intros Hc Hs [Heq | Hin]; [congruence | now apply Hs]. Qed.

Lemma noLF_tail (c : ascii) (s : string) : noLF (String c s) -> c <> LFbyte /\ noLF s.
Proof.
  intros Hcs. split; [intros -> | intros Hin]; apply Hcs; [left | right]; easy.
Qed.

(** Up to the first line feed, if there is one. *)
Lemma splitFrom_first_line (s : string) :
  forall cur,
    (noLF s /\ strings.splitFrom LF 0 cur s = [cur +:+ s])
    \/ exists a b,
         noLF a /\ s = a +:+ LF +:+ b
         /\ strings.splitFrom LF 0 cur s
            = (cur +:+ a) :: strings.splitFrom LF 0 EmptyString b.
Proof.
  induction s as [|c rest IH]; intros cur.
  - left. split; [apply noLF_empty | now rewrite append_empty_r].
  - cbn [strings.splitFrom]. rewrite HasPrefix_LF.
    destruct (Ascii.eqb_spec c LFbyte) as [-> | Hne].
    + right. exists EmptyString, rest.
      split; [apply noLF_empty|]. split; [reflexivity|].
      now rewrite append_empty_r.
    + destruct (IH (strings.snoc cur c)) as [[Hno ->] | (a & b & Ha & -> & ->)].
      * left. split; [now apply noLF_cons | now rewrite snoc_append].
      * right. exists (String c a), b.
        split; [now apply noLF_cons|]. split; [reflexivity|].
        now rewrite snoc_append.
Qed.

(** A text that starts with a line without line feed, then a line feed. *)
Lemma splitFrom_line (a b : string) :
  forall cur, noLF a ->
    strings.splitFrom LF 0 cur (a +:+ LF +:+ b)
    = (cur +:+ a) :: strings.splitFrom LF 0 EmptyString b.
Proof.
  induction a as [|c a IH]; intros cur Ha.
  - change (EmptyString +:+ LF +:+ b) with (String LFbyte b).
    cbn [strings.splitFrom]. rewrite HasPrefix_LF.
    destruct (Ascii.eqb_spec LFbyte LFbyte) as [_|Hne]; [|congruence].
    now rewrite append_empty_r.
  - apply noLF_tail in Ha as [Hc Ha].
    change (String c a +:+ LF +:+ b) with (String c (a +:+ LF +:+ b)).
    cbn [strings.splitFrom]. rewrite HasPrefix_LF.
    destruct (Ascii.eqb_spec c LFbyte) as [-> | _]; [congruence|].
    now rewrite IH, snoc_append.
Qed.

(** X6. The rule of lines 170-173 prints at most one line.  It prints
    [line] exactly when [line] has twelve bytes, none of them a line feed,
    and stands in the text between the first line feed and either the
    second one or the end. *)
Theorem printCode_prints_the_second_line (extractedText line : string) :
  (In (EvPrintln line) (printCode extractedText)
   <-> String.length line = 12%nat
       /\ noLF line
       /\ exists first rest,
            noLF first
            /\ extractedText = first +:+ LF +:+ line +:+ rest
            /\ (rest = EmptyString \/ exists more, rest = LF +:+ more))
  /\ (length (printCode extractedText) <= 1)%nat.
Proof.
  split.
  2: { unfold printCode. destruct (_ && _); cbn; lia. }
  unfold printCode, strings.Split. cbn [LF].
  change (String "010" EmptyString) with LF. split.
  - destruct (splitFrom_first_line extractedText EmptyString)
      as [[_ ->] | (first & b & Hfirst & -> & ->)]; [intros []|].
    destruct (splitFrom_first_line b EmptyString)
      as [[Hb ->] | (second & more & Hsecond & -> & ->)];
      cbn [length Nat.ltb Nat.leb andb nth String.append];
      change (EmptyString +:+ ?x) with x.
    + destruct (Nat.eqb_spec (String.length b) 12) as [Hlen|]; [|intros []].
      intros [[= <-] | []]. repeat split; try assumption.
      exists first, EmptyString. rewrite append_empty_r. auto.
    + destruct (Nat.eqb_spec (String.length second) 12) as [Hlen|]; [|intros []].
      intros [[= <-] | []]. repeat split; try assumption.
      exists first, (LF +:+ more). split; [exact Hfirst|]. split; [reflexivity|].
      right. now exists more.
  - intros (Hlen & Hline & first & rest & Hfirst & -> & Hrest).
    rewrite splitFrom_line by exact Hfirst.
    destruct Hrest as [-> | [more ->]].
    + rewrite append_empty_r, splitFrom_noLF by exact Hline.
      cbn [length Nat.ltb Nat.leb andb nth]. change (EmptyString +:+ line) with line.
      rewrite Hlen. left. reflexivity.
    + rewrite splitFrom_line by exact Hline.
      cbn [length Nat.ltb Nat.leb andb nth]. change (EmptyString +:+ line) with line.
      rewrite Hlen. left. reflexivity.
Qed.

(* ===================================================================== *)
(** ** More about the extension test                                     *)
(* ===================================================================== *)

Lemma length_append (a b : string) :
  String.length (a +:+ b) = (String.length a + String.length b)%nat.
Proof.
  induction a as [|x a IH]; [reflexivity|].
  change (S (String.length (a +:+ b)) = S (String.length a + String.length b)).
  now rewrite IH.
Qed.

Lemma substring_all (s : string) : substring 0 (String.length s) s = s.
Proof. induction s as [|c s IH]; [reflexivity|]. cbn. now rewrite IH. Qed.

Lemma substring_append (pre suf : string) :
  substring (String.length pre) (String.length suf) (pre +:+ suf) = suf.
Proof.
  induction pre as [|c pre IH]; [apply substring_all|].
  change (substring (String.length pre) (String.length suf) (pre +:+ suf) = suf).
  exact IH.
Qed.

Lemma substring_cut (s : string) :
  forall n, (n <= String.length s)%nat ->
            s = substring 0 n s +:+ substring n (String.length s - n) s.
Proof.
  induction s as [|c s IH]; intros n Hn.
  - cbn in Hn. now replace n with 0%nat by lia.
  - destruct n as [|n].
    + cbn [substring]. rewrite Nat.sub_0_r.
      change (String c s = substring 0 (String.length (String c s)) (String c s)).
      now rewrite substring_all.
    + cbn [String.length] in Hn.
      change (String c s
              = String c (substring 0 n s +:+ substring n (String.length s - n) s)).
      f_equal. apply IH. lia.
Qed.

(** [strings.HasSuffix] is true exactly of the strings that end in the
    suffix. *)
Lemma HasSuffix_ends (s suffix : string) :
  strings.HasSuffix s suffix = true <-> exists pre, s = pre +:+ suffix.
Proof.
  unfold strings.HasSuffix. split.
  - intros [Hlen Heq]%andb_prop. apply Nat.leb_le in Hlen. apply String.eqb_eq in Heq.
    exists (substring 0 (String.length s - String.length suffix) s).
    pose proof (substring_cut s (String.length s - String.length suffix)) as Hcut.
    replace (String.length s - (String.length s - String.length suffix))%nat
      with (String.length suffix) in Hcut by lia.
    rewrite Heq in Hcut. apply Hcut. lia.
  - intros [pre ->]. rewrite length_append. apply andb_true_intro. split.
    + apply Nat.leb_le. lia.
    + replace (String.length pre + String.length suffix - String.length suffix)%nat
        with (String.length pre) by lia.
      rewrite substring_append. apply String.eqb_refl.
Qed.

Lemma mapBytes_fixed (f : ascii -> ascii) (s : string) :
  strings.allBytes (fun c => Ascii.eqb (f c) c) s = true -> strings.mapBytes f s = s.
Proof.
  induction s as [|c s IH]; [reflexivity|].
  cbn [strings.allBytes strings.mapBytes]. intros [Hc Hs]%andb_prop.
  apply Ascii.eqb_eq in Hc. now rewrite Hc, IH.
Qed.

Lemma allBytes_impl (p q : ascii -> bool) (s : string) :
  (forall c, p c = true -> q c = true) ->
  strings.allBytes p s = true -> strings.allBytes q s = true.
Proof.
  intros Hpq. induction s as [|c s IH]; [reflexivity|].
  cbn [strings.allBytes]. intros [Hc Hs]%andb_prop.
  now rewrite (Hpq c Hc), IH.
Qed.

(** On an ASCII string [strings.ToLower] works byte by byte, whatever the
    case table says. *)
Lemma ToLower_ascii (caseLower : utf8.rune -> utf8.rune) (s : string) :
  strings.allBytes (fun c => utf8.byteOf c <? utf8.RuneSelf) s = true ->
  strings.ToLower caseLower s = strings.mapBytes lowerByte s.
Proof.
  intros Hascii. unfold strings.ToLower. rewrite Hascii.
  destruct (strings.allBytes (fun c => negb (strings.isUpperASCII c)) s) eqn:Hup;
    cbn [negb]; [|reflexivity].
  symmetry. apply mapBytes_fixed. revert Hup. apply allBytes_impl.
  intros c Hc. unfold lowerByte. destruct (strings.isUpperASCII c); [discriminate|].
  apply Ascii.eqb_refl.
Qed.

Lemma mapBytes_append_inv (f : ascii -> ascii) (p q : string) :
  forall s, strings.mapBytes f s = p +:+ q ->
            exists a b, s = a +:+ b /\ strings.mapBytes f a = p
                        /\ strings.mapBytes f b = q.
Proof.
  induction p as [|x p IH]; intros s Hs.
  - now exists EmptyString, s.
  - destruct s as [|c s]; [discriminate|].
    change (String (f c) (strings.mapBytes f s) = String x (p +:+ q)) in Hs.
    injection Hs as Hc Hs. destruct (IH s Hs) as (a & b & -> & Ha & Hb).
    exists (String c a), b. split; [reflexivity|]. split; [|exact Hb].
    cbn [strings.mapBytes]. now rewrite Hc, Ha.
Qed.

Lemma mapBytes_append (f : ascii -> ascii) (a b : string) :
  strings.mapBytes f (a +:+ b) = strings.mapBytes f a +:+ strings.mapBytes f b.
Proof.
  induction a as [|c a IH]; [reflexivity|].
  change (String (f c) (strings.mapBytes f (a +:+ b))
          = String (f c) (strings.mapBytes f a +:+ strings.mapBytes f b)).
  now rewrite IH.
Qed.

(** Goes through the 256 bytes. *)
Ltac each_byte c :=
  destruct c as [[] [] [] [] [] [] [] []]; vm_compute; intros H;
  try discriminate H; auto.

Lemma lowerByte_dot c : lowerByte c = "."%char -> c = "."%char.
Proof. each_byte c. Qed.

Lemma lowerByte_j c : lowerByte c = "j"%char -> c = "j"%char \/ c = "J"%char.
Proof. each_byte c. Qed.

Lemma lowerByte_p c : lowerByte c = "p"%char -> c = "p"%char \/ c = "P"%char.
Proof. each_byte c. Qed.

Lemma lowerByte_g c : lowerByte c = "g"%char -> c = "g"%char \/ c = "G"%char.
Proof. each_byte c. Qed.

Lemma lowered_extension (ext : string) :
  strings.mapBytes lowerByte ext = ".jpg" <-> In ext jpgSpellings.
Proof.
  split.
  - destruct ext as [|c0 [|c1 [|c2 [|c3 [|c4 ext]]]]]; try discriminate.
    cbn [strings.mapBytes]. intros [= H0 H1 H2 H3].
    apply lowerByte_dot in H0 as ->.
    apply lowerByte_j in H1 as [-> | ->];
      apply lowerByte_p in H2 as [-> | ->];
      apply lowerByte_g in H3 as [-> | ->]; cbn; tauto.
  - intros Hin. cbn in Hin.
    repeat (destruct Hin as [<- | Hin]; [reflexivity|]). destruct Hin.
Qed.

(** X7. For a name of ASCII bytes the extension test of the scan holds
    exactly when the name ends in [.jpg] written in any mix of upper and
    lower case, whatever the case table of the runtime says; a name of
    fewer than four bytes fails it. *)
Theorem extension_test_on_ascii_names
    (caseLower : utf8.rune -> utf8.rune) (filename : string) :
  strings.allBytes (fun c => utf8.byteOf c <? utf8.RuneSelf) filename = true ->
  (strings.HasSuffix (strings.ToLower caseLower filename) ".jpg" = true
   <-> exists stem ext, filename = stem +:+ ext /\ In ext jpgSpellings)
  /\ ((String.length filename < 4)%nat ->
      strings.HasSuffix (strings.ToLower caseLower filename) ".jpg" = false).
Proof.
  intros Hascii. rewrite ToLower_ascii by exact Hascii.
  assert (Hiff : strings.HasSuffix (strings.mapBytes lowerByte filename) ".jpg" = true
                 <-> exists stem ext, filename = stem +:+ ext /\ In ext jpgSpellings).
  { rewrite HasSuffix_ends. split.
    - intros [pre Hpre].
      apply mapBytes_append_inv in Hpre as (stem & ext & -> & _ & Hext).
      exists stem, ext. split; [reflexivity | now apply lowered_extension].
    - intros (stem & ext & -> & Hext). apply lowered_extension in Hext.
      exists (strings.mapBytes lowerByte stem). now rewrite mapBytes_append, Hext. }
  split; [exact Hiff|].
  intros Hshort.
  destruct (strings.HasSuffix (strings.mapBytes lowerByte filename) ".jpg") eqn:Htest;
    [|reflexivity].
  destruct (proj1 Hiff eq_refl) as (stem & ext & -> & Hext).
  rewrite length_append in Hshort. cbn in Hext.
  repeat (destruct Hext as [<- | Hext]; [cbn in Hshort; lia|]). destruct Hext.
Qed.

Lemma extension_test_on_ascii_names_witness :
  strings.HasSuffix (strings.ToLower (fun r => r) "b.JPG") ".jpg" = true
  <-> exists stem ext, "b.JPG" = stem +:+ ext /\ In ext jpgSpellings.
Proof.
  apply (extension_test_on_ascii_names (fun r => r) "b.JPG"). reflexivity.
Defined.

(* ===================================================================== *)
(** ** More about the processed set                                      *)
(* ===================================================================== *)

Lemma visit_processedExactly (e : Env) (directory : string) (file : DirEntry)
    (rest : list DirEntry) (s : Sys) :
  processedExactly s -> processedExactly (visit e directory file rest s).
Proof.
  intros [Hmap Hjobs]. rewrite visit_isCandidate.
  destruct (isCandidate e (processedFiles s) file); [|split; assumption].
  split; cbn [trace processedFiles goroutines]; rewrite dispatched_app;
    cbn [dispatched].
  - intros filename. destruct (decide (Name file = filename)) as [<- | Hne].
    + left. rewrite lookup_insert_eq. split; [reflexivity|].
      apply in_or_app. right. left. reflexivity.
    + rewrite lookup_insert_ne by exact Hne.
      destruct (Hmap filename) as [[Hk Hin] | [Hk Hin]]; [left | right];
        (split; [exact Hk|]); rewrite in_app_iff; cbn [In]; tauto.
  - intros filename path [Hold | [[= <- <-] | []]]%in_app_or; apply in_or_app.
    + left. eapply Hjobs, Hold.
    + right. left. reflexivity.
Qed.

Lemma watcherStep_processedExactly (e : Env) (directory referenceImagePath : string)
    (s : Sys) :
  processedExactly s ->
  processedExactly (watcherStep e directory referenceImagePath s).
Proof.
  intros Hs. unfold watcherStep.
  destruct (control s) as [| |[|file rest]|];
    [| | |now apply visit_processedExactly|exact Hs].
  all: split_cases; destruct Hs as [Hmap Hjobs]; split;
    cbn [trace processedFiles goroutines];
    rewrite ?dispatched_app, ?app_nil_r; assumption.
Qed.

Lemma goroutineStep_processedExactly (e : Env) (referenceImagePath : string)
    (i : nat) (s : Sys) :
  processedExactly s -> processedExactly (goroutineStep e referenceImagePath i s).
Proof.
  intros Hs. unfold goroutineStep.
  destruct (control s), (goroutines s !! i) as [[filename path]|] eqn:Hi;
    try exact Hs.
  all: destruct Hs as [Hmap Hjobs]; split; cbn [trace processedFiles goroutines];
    rewrite dispatched_app, dispatched_processFile, app_nil_r.
  all: try (intros f p Hjob; apply (Hjobs f p);
            apply list_elem_of_In; apply list_elem_of_In in Hjob;
            eapply list_elem_of_delete_inv; exact Hjob).
  all: assert (Hrun : In filename (dispatched (trace s)))
    by (apply (Hjobs filename path), list_elem_of_In;
        eapply list_elem_of_lookup_2; exact Hi).
  all: intros k; destruct (decide (filename = k)) as [<- | Hne];
    [left; now rewrite lookup_insert_eq
    | rewrite lookup_insert_ne by exact Hne; apply Hmap].
Qed.

Lemma step_keeps_processed (e : Env) (directory referenceImagePath : string)
    (filename : string) (a : Action) (s : Sys) :
  isProcessed (processedFiles s) filename = true ->
  isProcessed (processedFiles (step e directory referenceImagePath s a)) filename
  = true.
Proof.
  intros Hs. destruct a as [|i]; cbn [step].
  - unfold watcherStep, visit. split_cases; cbn [processedFiles];
      try exact Hs; now apply isProcessed_insert.
  - unfold goroutineStep. split_cases; cbn [processedFiles];
      try exact Hs; now apply isProcessed_insert.
Qed.

(** X8. Under every schedule the processed set is the set of the
    filenames a goroutine was started for: those read [true], no key
    holds [false], and a name that reads [true] does so for ever after
    (nothing is evicted, whatever became of the file). *)
Theorem processed_set_is_the_dispatched_names
    (e : Env) (directory referenceImagePath : string) (schedule : list Action) :
  let s := AnalyzeDirectory e directory referenceImagePath schedule in
  (forall filename,
      isProcessed (processedFiles s) filename = true
      <-> In filename (dispatched (trace s)))
  /\ (forall filename, processedFiles s !! filename <> Some false)
  /\ (forall later filename,
         isProcessed (processedFiles s) filename = true ->
         isProcessed
           (processedFiles
              (AnalyzeDirectory e directory referenceImagePath (schedule ++ later)))
           filename = true).
Proof.
  intros s.
  assert (Hs : processedExactly s).
  { apply AnalyzeDirectory_invariant.
    - split; [intros k; right; split; [apply lookup_empty | intros []]
             | intros f p []].
    - apply watcherStep_processedExactly.
    - intros s0 i. apply goroutineStep_processedExactly. }
  destruct Hs as [Hmap _]. split; [|split].
  - intros filename. unfold isProcessed.
    destruct (Hmap filename) as [[-> Hin] | [-> Hin]]; cbn; split;
      try tauto; discriminate.
  - intros filename. destruct (Hmap filename) as [[-> _] | [-> _]]; discriminate.
  - intros later filename Hk. unfold AnalyzeDirectory. rewrite fold_left_app.
    fold (AnalyzeDirectory e directory referenceImagePath schedule). fold s.
    revert Hk. generalize s. clear.
    induction later as [|a later IH]; intros s Hk; [exact Hk|].
    cbn [fold_left]. apply IH. now apply step_keeps_processed.
Qed.

(* ===================================================================== *)
(** ** Where the goroutines come from                                    *)
(* ===================================================================== *)

Lemma wasListed_later (e : Env) (directory : string) (s s' : Sys) (file : DirEntry) :
  (readDirCalls s <= readDirCalls s')%nat ->
  wasListed e directory s file -> wasListed e directory s' file.
Proof.
  intros Hle (n & files & Hn & Hread & Hin). exists n, files.
  split; [lia | split; assumption].
Qed.

(** One step, by what it adds to the trace. *)
Lemma fromListings_step (e : Env) (directory : string) (s s' : Sys)
    (evs : list Event) :
  fromListings e directory s ->
  trace s' = trace s ++ evs ->
  (readDirCalls s <= readDirCalls s')%nat ->
  (forall filename path,
      In (EvGo filename path) evs ->
      path = filepath_Join e directory filename
      /\ strings.HasSuffix
           (strings.ToLower (unicode_caseLower e) filename) ".jpg" = true
      /\ wasListed e directory s' {| Name := filename; IsDir := false |}) ->
  (forall dir, In (EvReadDir dir) evs -> dir = directory) ->
  (forall rest file,
      control s' = Ranging rest -> In file rest -> wasListed e directory s' file) ->
  fromListings e directory s'.
Proof.
  intros (Hgo & _ & Hdir) Htrace Hcalls Hnew Hnewdir Hrange.
  split; [|split; [exact Hrange|]]; rewrite Htrace.
  - intros filename path [Hold | Hin]%in_app_or; [|now apply Hnew].
    destruct (Hgo filename path Hold) as (Hpath & Hext & Hlisted).
    split; [exact Hpath|]. split; [exact Hext|].
    now apply (wasListed_later e directory s).
  - intros dir [Hold | Hin]%in_app_or; [now apply Hdir | now apply Hnewdir].
Qed.

Lemma watcherStep_fromListings (e : Env) (directory referenceImagePath : string)
    (s : Sys) :
  fromListings e directory s ->
  fromListings e directory (watcherStep e directory referenceImagePath s).
Proof.
  intros Hs. pose proof Hs as (_ & Hrange & _). unfold watcherStep.
  destruct (control s) as [| |[|file rest]|] eqn:Hctl.
  - destruct (ValidateImage e referenceImagePath) as [img|err].
    + apply (fromListings_step e directory s _ []); cbn; auto using app_nil_r;
        try (intros; contradiction); intros ? ? [=].
    + eapply (fromListings_step e directory s); [exact Hs | reflexivity | ..];
        cbn; auto; try (intros ? ? [[=] | []]); try (intros ? [[=] | []]);
        intros ? ? [=].
  - destruct (os_ReadDir e (readDirCalls s) directory) as [files|err] eqn:Hread;
      (eapply (fromListings_step e directory s); [exact Hs | reflexivity | ..]);
      cbn [control readDirCalls]; try lia.
    + intros ? ? [[=] | []].
    + intros dir [[= <-] | []]. reflexivity.
    + intros rest file [= <-] Hin. exists (readDirCalls s), files.
      cbn [readDirCalls]. split; [lia | split; assumption].
    + intros ? ? [[=] | [[=] | []]].
    + intros dir [[= <-] | [[=] | []]]. reflexivity.
    + intros ? ? [=].
  - eapply (fromListings_step e directory s); [exact Hs | reflexivity | ..];
      cbn [control readDirCalls]; try lia.
    + intros ? ? [[=] | []].
    + intros ? [[=] | []].
    + intros ? ? [=].
  - assert (Hfile : wasListed e directory s file)
      by (apply (Hrange (file :: rest) file eq_refl); left; reflexivity).
    assert (Hrest : forall file', In file' rest -> wasListed e directory s file')
      by (intros file' Hin; apply (Hrange (file :: rest) file' eq_refl);
          right; exact Hin).
    rewrite visit_isCandidate. unfold isCandidate.
    destruct (IsDir file) eqn:Hisdir; cbn [negb andb].
    { apply (fromListings_step e directory s _ []); cbn; auto using app_nil_r;
        try (intros; contradiction).
      intros rest' file' [= <-]. apply Hrest. }
    destruct (strings.HasSuffix _ _) eqn:Hext; cbn [andb].
    2: { apply (fromListings_step e directory s _ []); cbn; auto using app_nil_r;
           try (intros; contradiction).
         intros rest' file' [= <-]. apply Hrest. }
    destruct (negb _).
    2: { apply (fromListings_step e directory s _ []); cbn; auto using app_nil_r;
           try (intros; contradiction).
         intros rest' file' [= <-]. apply Hrest. }
    eapply (fromListings_step e directory s); [exact Hs | reflexivity | ..];
      cbn [control readDirCalls]; try lia.
    + intros filename path [[= <- <-] | []].
      split; [reflexivity|]. split; [exact Hext|].
      destruct file as [name isdir]. cbn in Hisdir |- *. subst isdir.
      exact Hfile.
    + intros ? [[=] | []].
    + intros rest' file' [= <-]. apply Hrest.
  - exact Hs.
Qed.

Lemma processFile_quiet (e : Env) (referenceImagePath path : string) :
  (forall filename p, ~ In (EvGo filename p) (processFile e referenceImagePath path))
  /\ (forall dir, ~ In (EvReadDir dir) (processFile e referenceImagePath path)).
Proof.
  unfold processFile, afterCompare, printCode.
  split; intros; split_cases; cbn [In]; intuition discriminate.
Qed.

Lemma goroutineStep_fromListings (e : Env) (directory referenceImagePath : string)
    (i : nat) (s : Sys) :
  fromListings e directory s ->
  fromListings e directory (goroutineStep e referenceImagePath i s).
Proof.
  intros Hs. pose proof Hs as (_ & Hrange & _). unfold goroutineStep.
  pose proof (processFile_quiet e referenceImagePath) as Hquiet.
  destruct (control s) eqn:Hctl, (goroutines s !! i) as [[filename path]|];
    try exact Hs.
  all: eapply (fromListings_step e directory s); [exact Hs | reflexivity | ..];
    cbn [control readDirCalls]; try lia.
  all: try (intros f p Hin; now apply (proj1 (Hquiet path)) in Hin).
  all: try (intros d Hin; now apply (proj2 (Hquiet path)) in Hin).
  all: try (intros rest file [=]; fail).
  intros rest file [= <-] Hin.
  apply (wasListed_later e directory s); [cbn [readDirCalls]; lia|].
  now apply (Hrange files).
Qed.

(** X9. Under every schedule, a goroutine is started only for a name that
    [os.ReadDir] listed for the watched directory as an entry that is not a
    directory, whose lowercased name ends in [.jpg]; its path is
    [filepath.Join(directory, filename)]; and [os.ReadDir] is called on no
    other directory. *)
Theorem goroutines_come_from_listings
    (e : Env) (directory referenceImagePath : string) (schedule : list Action) :
  let s := AnalyzeDirectory e directory referenceImagePath schedule in
  (forall filename path,
      In (EvGo filename path) (trace s) ->
      path = filepath_Join e directory filename
      /\ strings.HasSuffix
           (strings.ToLower (unicode_caseLower e) filename) ".jpg" = true
      /\ wasListed e directory s {| Name := filename; IsDir := false |})
  /\ (forall dir, In (EvReadDir dir) (trace s) -> dir = directory).
Proof.
  intros s.
  assert (Hs : fromListings e directory s).
  { apply AnalyzeDirectory_invariant.
    - split; [intros f p [] | split; [intros rest file [=] | intros d []]].
    - apply watcherStep_fromListings.
    - intros s0 i. now apply goroutineStep_fromListings. }
  destruct Hs as (Hgo & _ & Hdir). split; assumption.
Qed.

(* ===================================================================== *)
(** ** Sleeping and listing errors                                       *)
(* ===================================================================== *)

Lemma failedCalls_S (e : Env) (directory : string) (n : nat) :
  failedCalls e directory (S n)
  = (failedCalls e directory n
     + match os_ReadDir e n directory with Err _ => 1 | Ok _ => 0 end)%nat.
Proof.
  unfold failedCalls. rewrite seq_S, List.filter_app, length_app.
  cbn [List.filter Nat.add]. now destruct (os_ReadDir e n directory).
Qed.

Lemma countIf_app (p : Event -> bool) (evs evs' : list Event) :
  countIf p (evs ++ evs') = (countIf p evs + countIf p evs')%nat.
Proof. unfold countIf. now rewrite List.filter_app, length_app. Qed.

Lemma countIf_nil (p : Event -> bool) : countIf p [] = 0%nat.
Proof. reflexivity. Qed.

Lemma countIf_cons (p : Event -> bool) (ev : Event) (evs : list Event) :
  countIf p (ev :: evs) = ((if p ev then 1 else 0) + countIf p evs)%nat.
Proof. unfold countIf. cbn [List.filter]. now destruct (p ev). Qed.

Lemma substring_prefix (pre s : string) :
  substring 0 (String.length pre) (pre +:+ s) = pre.
Proof.
  induction pre as [|c pre IH]; [now destruct s|].
  change (String c (substring 0 (String.length pre) (pre +:+ s)) = String c pre).
  now rewrite IH.
Qed.

Lemma HasPrefix_append (pre s : string) : strings.HasPrefix (pre +:+ s) pre = true.
Proof.
  unfold strings.HasPrefix. rewrite length_append, substring_prefix.
  apply andb_true_intro. split; [apply Nat.leb_le; lia | apply String.eqb_refl].
Qed.

Lemma HasPrefix_same_byte (c : ascii) (s pre : string) :
  strings.HasPrefix (String c s) (String c pre) = strings.HasPrefix s pre.
Proof.
  unfold strings.HasPrefix. cbn [String.length substring Nat.leb String.eqb].
  now rewrite Ascii.eqb_refl.
Qed.

Lemma HasPrefix_other_byte (c d : ascii) (s pre : string) :
  c <> d -> strings.HasPrefix (String c s) (String d pre) = false.
Proof.
  intros Hcd. unfold strings.HasPrefix. cbn [String.length substring String.eqb].
  apply Ascii.eqb_neq in Hcd. rewrite Hcd. apply andb_false_r.
Qed.

Lemma not_a_listing_error (err : error) :
  strings.HasPrefix ("Reference image not found: " +:+ err)
    "Error reading directory: " = false
  /\ strings.HasPrefix ("Error comparing images: " +:+ err)
       "Error reading directory: " = false
  /\ strings.HasPrefix ("Error extracting text: " +:+ err)
       "Error reading directory: " = false.
Proof.
  rewrite !append_cons.
  repeat split; rewrite ?HasPrefix_same_byte; now apply HasPrefix_other_byte.
Qed.

Lemma processFile_uncounted (e : Env) (referenceImagePath path : string) :
  countIf isReadDir (processFile e referenceImagePath path) = 0%nat
  /\ countIf isSleep (processFile e referenceImagePath path) = 0%nat
  /\ countIf isListingError (processFile e referenceImagePath path) = 0%nat.
Proof.
  unfold processFile, afterCompare, printCode.
  split_cases; rewrite ?countIf_cons, ?countIf_nil;
    cbn [isReadDir isSleep isListingError];
    rewrite ?(proj1 (proj2 (not_a_listing_error _))),
            ?(proj2 (proj2 (not_a_listing_error _)));
    repeat split.
Qed.

Lemma watcherStep_accounted (e : Env) (directory referenceImagePath : string)
    (s : Sys) :
  accounted e directory s ->
  accounted e directory (watcherStep e directory referenceImagePath s).
Proof.
  unfold accounted, ranging. intros (Hcalls & Herrs & Hsum).
  unfold watcherStep, visit.
  destruct (control s) as [| |[|file rest]|] eqn:Hctl;
    [destruct (ValidateImage e referenceImagePath)
    |destruct (os_ReadDir e (readDirCalls s) directory) eqn:Hread
    |
    |destruct (IsDir file); [|destruct (_ || _)]
    |];
    cbn [trace control readDirCalls];
    rewrite ?Hctl, ?failedCalls_S, ?Hread, ?countIf_app, ?countIf_cons, ?countIf_nil;
    cbn [isReadDir isSleep isListingError];
    rewrite ?HasPrefix_append, ?(proj1 (not_a_listing_error _)); lia.
Qed.

Lemma goroutineStep_accounted (e : Env) (directory referenceImagePath : string)
    (i : nat) (s : Sys) :
  accounted e directory s ->
  accounted e directory (goroutineStep e referenceImagePath i s).
Proof.
  unfold accounted, ranging. intros (Hcalls & Herrs & Hsum). unfold goroutineStep.
  pose proof (processFile_uncounted e referenceImagePath) as Hnone.
  destruct (control s) eqn:Hctl, (goroutines s !! i) as [[filename path]|];
    cbn [trace control readDirCalls]; rewrite ?Hctl, ?countIf_app;
    try destruct (Hnone path) as (-> & -> & ->); lia.
Qed.

(** X10. Under every schedule the trace holds one [os.ReadDir] event per
    call; the listing errors logged are as many as the errors [os.ReadDir]
    gave; and the sleeps, the listing errors and the listing being ranged
    over (if there is one) add up to the calls: one sleep for each listing
    ranged over to the end, none for a call that failed. *)
Theorem every_listing_is_accounted_for
    (e : Env) (directory referenceImagePath : string) (schedule : list Action) :
  let s := AnalyzeDirectory e directory referenceImagePath schedule in
  countIf isReadDir (trace s) = readDirCalls s
  /\ countIf isListingError (trace s) = failedCalls e directory (readDirCalls s)
  /\ (countIf isSleep (trace s) + ranging s + countIf isListingError (trace s))%nat
     = readDirCalls s.
Proof.
  intros s.
  apply (AnalyzeDirectory_invariant e directory referenceImagePath
           (accounted e directory)).
  - repeat split.
  - apply watcherStep_accounted.
  - intros s0 i. apply goroutineStep_accounted.
Qed.

(* ===================================================================== *)
(** ** The scan misses no candidate                                      *)
(* ===================================================================== *)

Lemma isProcessed_insert_inv (m : gmap string bool) (k filename : string) :
  isProcessed (<[k := true]> m) filename = true ->
  filename = k \/ isProcessed m filename = true.
Proof.
  unfold isProcessed. destruct (decide (k = filename)) as [<- | Hne].
  - now left.
  - rewrite lookup_insert_ne by exact Hne. now right.
Qed.

Lemma watcherStep_claimed (e : Env) (directory referenceImagePath : string)
    (s : Sys) :
  claimed e directory s ->
  claimed e directory (watcherStep e directory referenceImagePath s).
Proof.
  intros [Hmap Hjobs]. unfold watcherStep.
  destruct (control s) as [| |[|file rest]|];
    [destruct (ValidateImage e referenceImagePath)
    |destruct (os_ReadDir e (readDirCalls s) directory)
    |
    |rewrite visit_isCandidate; destruct (isCandidate e (processedFiles s) file)
    |];
    split; cbn [trace processedFiles goroutines];
    try assumption;
    try (intros filename Hk; apply in_or_app; left; now apply Hmap);
    try (intros filename path Hjob; apply in_or_app; left; now apply (Hjobs _ path)).
  - intros filename [-> | Hk]%isProcessed_insert_inv; apply in_or_app.
    + right. left. reflexivity.
    + left. now apply Hmap.
  - intros filename path [Hold | [[= <- <-] | []]]%in_app_or; apply in_or_app.
    + left. now apply (Hjobs _ path).
    + right. left. reflexivity.
Qed.

Lemma goroutineStep_claimed (e : Env) (directory referenceImagePath : string)
    (i : nat) (s : Sys) :
  claimed e directory s ->
  claimed e directory (goroutineStep e referenceImagePath i s).
Proof.
  intros Hs. unfold goroutineStep.
  destruct (control s), (goroutines s !! i) as [[filename path]|] eqn:Hi;
    try exact Hs.
  all: destruct Hs as [Hmap Hjobs]; split; cbn [trace processedFiles goroutines].
  all: try (intros f p Hjob; apply in_or_app; left; apply (Hjobs f p);
            apply list_elem_of_In; apply list_elem_of_In in Hjob;
            eapply list_elem_of_delete_inv; exact Hjob).
  all: intros f [-> | Hk]%isProcessed_insert_inv; apply in_or_app; left;
    [apply (Hjobs filename path), list_elem_of_In;
     eapply list_elem_of_lookup_2; exact Hi
    | now apply Hmap].
Qed.

Lemma run_keeps_processed (e : Env) (directory referenceImagePath : string)
    (filename : string) (later : list Action) :
  forall s,
    isProcessed (processedFiles s) filename = true ->
    isProcessed
      (processedFiles (fold_left (step e directory referenceImagePath) later s))
      filename = true.
Proof.
  induction later as [|a later IH]; intros s Hk; [exact Hk|].
  cbn [fold_left]. apply IH. now apply step_keeps_processed.
Qed.

(** The watcher, given as many steps as the listing has entries, has
    claimed every candidate of the listing, whatever the goroutines do in
    between. *)
Lemma range_claims (e : Env) (directory referenceImagePath : string)
    (file : DirEntry) (later : list Action) :
  forall (files : list DirEntry) (s : Sys),
    control s = Ranging files ->
    (length files <= watcherTurns later)%nat ->
    In file files ->
    IsDir file = false ->
    strings.HasSuffix (strings.ToLower (unicode_caseLower e) (Name file)) ".jpg"
    = true ->
    isProcessed
      (processedFiles (fold_left (step e directory referenceImagePath) later s))
      (Name file) = true.
Proof.
  unfold watcherTurns.
  induction later as [|a later IH]; intros files s Hctl Hlen Hin Hfile Hext.
  - destruct files; [destruct Hin | cbn in Hlen; lia].
  - cbn [fold_left]. destruct a as [|i]; cbn [step List.filter isWatcher length] in *.
    + destruct files as [|first rest]; [destruct Hin|].
      cbn [length] in Hlen.
      assert (Hrest : control (watcherStep e directory referenceImagePath s)
                      = Ranging rest).
      { unfold watcherStep. rewrite Hctl, visit_isCandidate.
        now destruct (isCandidate e (processedFiles s) first). }
      destruct Hin as [-> | Hin]; [|apply (IH rest); auto; lia].
      apply run_keeps_processed.
      unfold watcherStep. rewrite Hctl, visit_isCandidate. unfold isCandidate.
      rewrite Hfile, Hext. cbn [negb andb].
      destruct (isProcessed (processedFiles s) (Name file)) eqn:Hk;
        cbn [negb processedFiles]; [exact Hk|].
      unfold isProcessed. now rewrite lookup_insert_eq.
    + apply (IH files); auto.
      now rewrite (goroutineStep_control e referenceImagePath).
Qed.

(** X11. When the watcher is ranging over a listing and goes on for as
    many steps as the listing has entries, under every schedule of the
    goroutines in between, every entry of the listing that is not a
    directory and whose lowercased name ends in [.jpg] is in the processed
    set and has its [go] in the trace, under the joined path. *)
Theorem scan_misses_no_candidate
    (e : Env) (directory referenceImagePath : string)
    (before later : list Action) (files : list DirEntry) (file : DirEntry) :
  control (AnalyzeDirectory e directory referenceImagePath before) = Ranging files ->
  (length files <= watcherTurns later)%nat ->
  In file files ->
  IsDir file = false ->
  strings.HasSuffix (strings.ToLower (unicode_caseLower e) (Name file)) ".jpg"
  = true ->
  let s := AnalyzeDirectory e directory referenceImagePath (before ++ later) in
  isProcessed (processedFiles s) (Name file) = true
  /\ In (EvGo (Name file) (filepath_Join e directory (Name file))) (trace s).
Proof.
  intros Hctl Hlen Hin Hfile Hext s.
  assert (Hk : isProcessed (processedFiles s) (Name file) = true).
  { subst s. unfold AnalyzeDirectory. rewrite fold_left_app.
    now apply (range_claims e directory referenceImagePath file later files). }
  split; [exact Hk|].
  assert (Hs : claimed e directory s).
  { apply AnalyzeDirectory_invariant.
    - split; [intros filename [=] | intros filename path []].
    - apply watcherStep_claimed.
    - intros s0 i. apply goroutineStep_claimed. }
  now apply (proj1 Hs).
Qed.

Lemma scan_misses_no_candidate_witness :
  let s := AnalyzeDirectory sampleEnv "./img" "img.jpg"
             ([Watcher; Watcher; Watcher] ++ [Watcher; Finish 0; Watcher; Watcher; Watcher])
  in
  isProcessed (processedFiles s) "b.JPG" = true
  /\ In (EvGo "b.JPG" "./img/b.JPG") (trace s).
Proof.
  apply (scan_misses_no_candidate sampleEnv "./img" "img.jpg"
           [Watcher; Watcher; Watcher]
           [Watcher; Finish 0; Watcher; Watcher; Watcher]
           (sampleListing ++ [ {| Name := "d.jpg"; IsDir := true |} ])
           {| Name := "b.JPG"; IsDir := false |}).
  - reflexivity.
  - cbn. lia.
  - right. left. reflexivity.
  - reflexivity.
  - reflexivity.
Defined.

(* ===================================================================== *)
(** ** The order of the two paths of [CompareImages]                     *)
(* ===================================================================== *)

(** X12. When [gocv.Resize] gives matrices of the size asked for,
    [CompareImages] gives the same score for the two orders of its paths,
    and fails for one order exactly when it fails for the other; the error
    it returns is that of its first path when that one is not valid, and
    that of its second path otherwise. *)
Theorem CompareImages_either_order (e : Env) (image1Path image2Path : string) :
  resizes e ->
  (forall score,
      CompareImages e image1Path image2Path = Ok score
      <-> CompareImages e image2Path image1Path = Ok score)
  /\ ((exists err, CompareImages e image1Path image2Path = Err err)
      <-> (exists err, CompareImages e image2Path image1Path = Err err))
  /\ (forall err,
         CompareImages e image1Path image2Path = Err err ->
         match ValidateImage e image1Path with
         | Err err1 => err = err1
         | Ok _ => ValidateImage e image2Path = Err err
         end).
Proof.
  intros Hsize. unfold CompareImages.
  destruct (ValidateImage e image1Path) as [img1|err1],
           (ValidateImage e image2Path) as [img2|err2].
  - assert (Hsym : SSIM (F := float) e (gocv_Resize e img1 300%nat 300%nat)
                     (gocv_Resize e img2 300%nat 300%nat)
                   = SSIM (F := float) e (gocv_Resize e img2 300%nat 300%nat)
                       (gocv_Resize e img1 300%nat 300%nat)).
    { destruct (Hsize img1 300%nat 300%nat) as [Hc1 Hr1],
               (Hsize img2 300%nat 300%nat) as [Hc2 Hr2].
      unfold SSIM. rewrite Hc1, Hr1, Hc2, Hr2.
      rewrite (@sumPixels_comm float float64 float64_mul_comm float64_add_comm
                 (gocv_CvtColor_BGRToGray e (gocv_Resize e img1 300%nat 300%nat))).
      reflexivity. }
    cbv zeta. rewrite Hsym. split; [|split].
    + intros score. tauto.
    + tauto.
    + intros err [=].
  - split; [|split].
    + intros score. split; intros [=].
    + split; intros _; eauto.
    + intros err [= ->]. reflexivity.
  - split; [|split].
    + intros score. split; intros [=].
    + split; intros _; eauto.
    + intros err [= ->]. reflexivity.
  - split; [|split].
    + intros score. split; intros [=].
    + split; intros _; eauto.
    + intros err [= ->]. reflexivity.
Qed.

Lemma CompareImages_either_order_witness :
  CompareImages sampleEnv "img.jpg" "a.jpg" = Ok 3.9999999700000002%float
  <-> CompareImages sampleEnv "a.jpg" "img.jpg" = Ok 3.9999999700000002%float.
Proof.
  apply (CompareImages_either_order sampleEnv "img.jpg" "a.jpg").
  intros img w h. split; reflexivity.
Defined.
